(** * Mail forwarder: ledger, retention sweeper and reconciliation loop

    A shallow embedding of [mail_forwarder.py] (class [MailForwarder]):
    the SQLite table [retrieved_mails] is a finite map keyed by UIDL, the
    POP3 and SMTP servers and the wall clock are oracles the functions
    consult, and every method is a computation in a small state-and-
    exception monad over the ledger and a chronological trace of the calls
    made to the outside world.  The module-level functions
    [create_pop3_connection], [test_config], [parse_start_date] and [main]
    are functions of the answers they get, returning the calls they made
    next to their result.

    Taken as given: the SQLite calls themselves do not fail, dates stay
    within the range of [datetime], and the iteration order of the Python
    set [new_uidls], which the language leaves open, is the order of
    stdpp's [elements]; no statement below depends on that order.  The
    text of an [ssl] error is ASCII, and [datetime.strptime] is an oracle
    of [parse_start_date]. *)

From Stdlib Require Import ZArith.
From stdpp Require Import gmap strings list fin_maps.

Local Open Scope Z_scope.

(** ** Values *)

Abbreviation bytes := (list Byte.byte).

(** Python exceptions that the modelled code can meet. *)
Inductive exn :=
| ValueError      (* tuple unpacking with the wrong arity, malformed UIDL line *)
| TypeError       (* naive against aware datetime comparison, wrong tuple field *)
| KeyError
| PopError        (* anything raised by the POP3 session *)
| SmtpError.      (* anything raised by the SMTP session *)

(** A [datetime]: microseconds on the time line, and whether the value
    carries a time zone.  Python refuses to order a naive value against
    an aware one. *)
Record datetime := { instant : Z; aware : bool }.

Definition dt_lt (a b : datetime) : exn + bool :=
  if bool_decide (aware a = aware b) then inr (instant a <? instant b)
  else inl TypeError.

(** One microsecond-resolution day, [timedelta(days=1)]. *)
Definition day : Z := 86400000000.

(** The elements Python tuples are built from here. *)
Inductive pyval :=
| PStr (s : string)
| PBytes (b : bytes)
| PDate (d : option datetime).

Abbreviation pytuple := (list pyval).

(** ** The ledger: table [retrieved_mails], primary key [uidl] *)

Record row := {
  forwarded_at : Z;
  from_addr : string;
  subject : string;
  forward_success : bool
}.

(** ** Observable calls *)

Inductive event :=
| EvPopConnect                                   (* create_pop3_connection *)
| EvRetr (uidl : string) (msg_num : Z)           (* pop_conn.retr *)
| EvDele (uidl : string) (msg_num : Z)           (* pop_conn.dele *)
| EvPopQuit                                      (* pop_conn.quit returned *)
| EvForward (uidl : string) (success : bool)     (* _forward_mail returned *)
| EvSave (uidl from subj : string) (success : bool)  (* INSERT OR REPLACE *)
| EvFetchSummary (on_server new : nat)           (* logger.info summary *)
| EvSweepSummary (deleted : nat)
| EvOnceSummary (new forwarded failed : nat)
| EvCycleSummary (processed : nat)
| EvSweepError                                   (* logger.error, sweeper *)
| EvFetchError                                   (* logger.error, fetch *)
| EvPbsError                                     (* logger.error, POP before SMTP *)
| EvForwardError                                 (* logger.error, relay *)
| EvCycleError.                                  (* logger.error, daemon turn *)

#[global] Instance event_eq_dec : EqDecision event.
Proof. solve_decision. Defined.

(** ** The world a method runs in *)

Record world := {
  db : gmap string row;     (* committed contents of retrieved_mails *)
  ticks : nat;              (* number of clock readings so far *)
  trace : list event        (* calls made so far, oldest first *)
}.

Definition set_db (d : gmap string row) (w : world) : world :=
  {| db := d; ticks := ticks w; trace := trace w |}.

Definition log (e : event) (w : world) : world :=
  {| db := db w; ticks := ticks w; trace := trace w ++ [e] |}.

(** ** State and exception monad *)

Definition M (A : Type) : Type := world → (exn + A) * world.

Definition ret {A} (a : A) : M A := λ w, (inr a, w).
Definition raise {A} (e : exn) : M A := λ w, (inl e, w).
Definition bind {A B} (m : M A) (k : A → M B) : M B :=
  λ w, match m w with
       | (inr a, w') => k a w'
       | (inl e, w') => (inl e, w')
       end.
Definition emit (e : event) : M unit := λ w, (inr tt, log e w).
Definition lift {A} (r : exn + A) : M A := λ w, (r, w).
(** [try: m except Exception as e: h e] *)
Definition try_except {A} (m : M A) (h : exn → M A) : M A :=
  λ w, match m w with
       | (inl e, w') => h e w'
       | r => r
       end.
Definition guard (b : bool) (e : exn) : M unit :=
  if b then ret tt else raise e.

#[global] Instance M_ret : MRet M := @ret.
#[global] Instance M_bind : MBind M := λ A B k m, bind m k.

(** ** Servers and configuration *)

(** What one POP3 session answers.  A line of the UIDL listing is given
    as the pair [(int(parts[0]), parts[1])], or [None] when the line does
    not split that way and the parse raises. *)
Record pop3_server := {
  pop_connect : bool;
  pop_user : bool;
  pop_pass : bool;
  pop_uidl : option (list (option (Z * string)));
  pop_retr : Z → option (list bytes);
  pop_dele : Z → bool;
  pop_quit : bool
}.

(** What one SMTP session answers. *)
Record smtp_server := {
  smtp_connect : bool;
  smtp_starttls : bool;
  smtp_login : bool;
  smtp_sendmail : bytes → bool;
  smtp_quit : bool;
  pbs_session : pop3_server       (* the POP3 session of POP-before-SMTP *)
}.

Record config := {
  mail_retention_days : option Z;    (* absent key: 30 *)
  smtp_port : Z;
  smtp_use_tls : option bool;        (* absent key: True *)
  pop_before_smtp : option bool      (* absent key: False *)
}.

(** The fields of [self] the methods read: the loaded configuration and
    the cutoff [start_date], when one was given. *)
Record MailForwarder := {
  cfg : config;
  start_date : option datetime
}.

(** What one cycle meets outside: the POP3 session of the sweeper, the
    POP3 session of the poll, and the SMTP session the [n]-th call of
    [_forward_mail] meets. *)
Record cycle_env := {
  sweep_session : pop3_server;
  fetch_session : pop3_server;
  smtp_sessions : nat → smtp_server
}.

(** One start of the program: a one-shot run, or a daemon run of some
    turns; each start has its own [self]. *)
Inductive invocation :=
| Once (self : MailForwarder) (c : cycle_env)
| Daemon (self : MailForwarder) (cycles : list cycle_env).

(** ** Text of an exception: [str.lower] and [in]

    The texts compared are those of the [ssl] module's errors, which are
    ASCII: [lower] maps the letters A to Z and leaves every other
    character as it is. *)

Definition lower_char (c : Ascii.ascii) : Ascii.ascii :=
  let n := Ascii.nat_of_ascii c in
  if (65 <=? n)%nat && (n <=? 90)%nat then Ascii.ascii_of_nat (n + 32) else c.

Fixpoint lower (s : string) : string :=
  match s with
  | EmptyString => EmptyString
  | String c rest => String (lower_char c) (lower rest)
  end.

Fixpoint starts_with (needle text : string) : bool :=
  match needle, text with
  | EmptyString, _ => true
  | String _ _, EmptyString => false
  | String a needle', String b text' =>
      bool_decide (a = b) && starts_with needle' text'
  end.

(** [needle in text] *)
Fixpoint contains (needle text : string) : bool :=
  starts_with needle text ||
  match text with
  | EmptyString => false
  | String _ text' => contains needle text'
  end.

(** ** Connection set-up: [create_pop3_connection] *)

(** The three ways a connection is asked for: [poplib.POP3], then
    [poplib.POP3_SSL] with the default context, then [POP3_SSL] with the
    ciphers of [DEFAULT@SECLEVEL=1]. *)
Inductive security := Cleartext | StandardTLS | SecLevel1.

(** What an attempt raises: [ssl.SSLError] with its text, or anything
    else. *)
Inductive connect_error := SSLError (text : string) | OtherError.

Inductive connect_event :=
| Connect (how : security)      (* poplib.POP3 / poplib.POP3_SSL called *)
| LogTrying                     (* logger.debug, first attempt *)
| LogStandardOk                 (* logger.info *)
| LogOldServer                  (* logger.warning *)
| LogLowSecurityOk              (* logger.info *)
| LogRetryFailed.               (* logger.error *)

#[global] Instance security_eq_dec : EqDecision security.
Proof. solve_decision. Defined.
#[global] Instance connect_event_eq_dec : EqDecision connect_event.
Proof. solve_decision. Defined.

(** [if logger: logger.<level>(...)] *)
Definition logged (logger : bool) (e : connect_event) : list connect_event :=
  if logger then [e] else [].

(** [answer how] is what the host answers to an attempt of kind [how];
    the calls made and the lines logged come back next to the result. *)
Definition create_pop3_connection {C : Type}
    (answer : security → connect_error + C) (use_ssl logger : bool)
  : list connect_event * (connect_error + C) :=
  if negb use_ssl then ([Connect Cleartext], answer Cleartext)
  else
    let first := logged logger LogTrying ++ [Connect StandardTLS] in
    match answer StandardTLS with
    | inr pop_conn => (first ++ logged logger LogStandardOk, inr pop_conn)
    | inl (SSLError text) =>
        if contains "dh key too small" (lower text) then
          let second :=
            first ++ logged logger LogOldServer ++ [Connect SecLevel1] in
          match answer SecLevel1 with
          | inr pop_conn =>
              (second ++ logged logger LogLowSecurityOk, inr pop_conn)
          | inl retry_error =>
              (second ++ logged logger LogRetryFailed, inl retry_error)
          end
        else (first, inl (SSLError text))
    | inl OtherError => (first, inl OtherError)
    end.

(** The session a method of the forwarder meets when the host answers
    [answer]: [pop_connect] tells whether [create_pop3_connection], called
    with the logger, came back with a connection. *)
Definition session_of (answer : security → connect_error + pop3_server)
    (use_ssl : option bool) : pop3_server :=
  match (create_pop3_connection answer (default true use_ssl) true).2 with
  | inr pop_conn =>
      {| pop_connect := true; pop_user := pop_user pop_conn;
         pop_pass := pop_pass pop_conn; pop_uidl := pop_uidl pop_conn;
         pop_retr := pop_retr pop_conn; pop_dele := pop_dele pop_conn;
         pop_quit := pop_quit pop_conn |}
  | inl _ =>
      {| pop_connect := false; pop_user := false; pop_pass := false;
         pop_uidl := None; pop_retr := λ _, None; pop_dele := λ _, false;
         pop_quit := false |}
  end.

(** ** The connection test: [test_config] *)

(** What reading the configuration file gives: the two errors the
    function handles, or the loaded settings with [pop3.use_ssl]. *)
Inductive yaml_load :=
| FileNotFound
| YAMLError
| Loaded (pop3_use_ssl : option bool) (c : config).

Inductive probe_event :=
| PrPop (e : connect_event)     (* inside create_pop3_connection *)
| PrUser | PrPass | PrQuit      (* pop_conn.user, pass_, quit called *)
| PrSmtp (ssl : bool)           (* smtplib.SMTP_SSL or smtplib.SMTP called *)
| PrStartTls | PrLogin | PrSmtpQuit
| PrAllPassed.                  (* the closing banner *)

#[global] Instance probe_event_eq_dec : EqDecision probe_event.
Proof. solve_decision. Defined.

(** One POP3 probe: connect without a logger, [user], [pass_], [quit];
    any exception makes the probe fail. *)
Definition probe_pop3 (answer : security → connect_error + pop3_server)
    (use_ssl : option bool) : list probe_event * bool :=
  let r := create_pop3_connection answer (default true use_ssl) false in
  match r.2 with
  | inl _ => (PrPop <$> r.1, false)
  | inr pop_conn =>
      if negb (pop_user pop_conn) then ((PrPop <$> r.1) ++ [PrUser], false)
      else if negb (pop_pass pop_conn)
      then ((PrPop <$> r.1) ++ [PrUser; PrPass], false)
      else ((PrPop <$> r.1) ++ [PrUser; PrPass; PrQuit], pop_quit pop_conn)
  end.

(** [smtp_conn.login] and [smtp_conn.quit] after the calls [before]. *)
Definition probe_login (smtp : smtp_server) (before : list probe_event)
  : list probe_event * bool :=
  if negb (smtp_login smtp) then (before ++ [PrLogin], false)
  else (before ++ [PrLogin; PrSmtpQuit], smtp_quit smtp).

(** The SMTP probe: port 465 connects over SSL, any other port in the
    clear followed by STARTTLS unless [use_tls] is off. *)
Definition probe_smtp (c : config) (smtp : smtp_server)
  : list probe_event * bool :=
  if bool_decide (smtp_port c = 465) then
    if negb (smtp_connect smtp) then ([PrSmtp true], false)
    else probe_login smtp [PrSmtp true]
  else
    if negb (smtp_connect smtp) then ([PrSmtp false], false)
    else if default true (smtp_use_tls c) then
      if negb (smtp_starttls smtp) then ([PrSmtp false; PrStartTls], false)
      else probe_login smtp [PrSmtp false; PrStartTls]
    else probe_login smtp [PrSmtp false].

(** [test_config]: [pop3] answers the first POP3 probe and [pbs] the
    probe of POP before SMTP; the result is the returned flag. *)
Definition test_config (file : yaml_load)
    (pop3 pbs : security → connect_error + pop3_server) (smtp : smtp_server)
  : list probe_event * bool :=
  match file with
  | FileNotFound | YAMLError => ([], false)
  | Loaded use_ssl c =>
      let p1 := probe_pop3 pop3 use_ssl in
      let p2 := if default false (pop_before_smtp c)
                then probe_pop3 pbs use_ssl else ([], true) in
      let p3 := probe_smtp c smtp in
      let success := p1.2 && p2.2 && p3.2 in
      (p1.1 ++ p2.1 ++ p3.1 ++ (if success then [PrAllPassed] else []),
       success)
  end.

(** A POP3 session that connects, authenticates and quits; an SMTP
    session that connects, secures the connection where that is asked for,
    authenticates and quits. *)
Definition session_passes (s : pop3_server) : bool :=
  pop_connect s && pop_user s && pop_pass s && pop_quit s.

Definition smtp_passes (c : config) (smtp : smtp_server) : bool :=
  smtp_connect smtp &&
  (bool_decide (smtp_port c = 465) || negb (default true (smtp_use_tls c)) ||
   smtp_starttls smtp) &&
  smtp_login smtp && smtp_quit smtp.

Definition is_connect (e : connect_event) : bool :=
  match e with Connect _ => true | _ => false end.

(** ** The command line: [parse_start_date] and [main] *)

(** [strptime date_string format] is [datetime.strptime]: the parsed
    wall-clock reading in microseconds, or [None] where it raises
    [ValueError].  [replace(tzinfo=timezone(timedelta(hours=9)))] makes the
    reading aware: it denotes the instant nine hours earlier. *)
Definition jst : Z := 9 * 3600 * 1000000.

Definition parse_start_date (strptime : string → string → option Z)
    (date_string : string) : exn + datetime :=
  match strptime date_string "%Y-%m-%d %H:%M:%S" with
  | Some dt => inr {| instant := dt - jst; aware := true |}
  | None =>
      match strptime date_string "%Y-%m-%d" with
      | Some dt => inr {| instant := dt - jst; aware := true |}
      | None => inl ValueError
      end
  end.

(** The namespace [parser.parse_args()] returns. *)
Record namespace := {
  args_once : bool;
  args_daemon : bool;
  args_interval : option Z;
  args_config : string;
  args_setup : bool;
  args_test_config : bool;
  args_start_date : option string
}.

(** The call [main] ends with. *)
Inductive command :=
| CmdSetup                                  (* setup_wizard() *)
| CmdTestConfig (config_path : string)      (* test_config(args.config) *)
| CmdExit (status : Z)                      (* sys.exit(status) *)
| CmdOnce (config_path : string) (start : option datetime)
    (* MailForwarder(config_path, start).process_once() *)
| CmdDaemon (config_path : string) (start : option datetime)
            (interval : option Z).
    (* MailForwarder(config_path, start).process_daemon(interval), where
       [None] stands for the interval of the configuration file *)

Definition main (strptime : string → string → option Z) (args : namespace)
  : command :=
  if args_setup args then CmdSetup
  else if args_test_config args then CmdTestConfig (args_config args)
  else
    let start_date :=
      match args_start_date args with
      | None => inr None
      | Some s =>
          if bool_decide (s = "") then inr None
          else match parse_start_date strptime s with
               | inr d => inr (Some d)
               | inl e => inl e
               end
      end in
    match start_date with
    | inl _ => CmdExit 1
    | inr start =>
        if args_daemon args then
          CmdDaemon (args_config args) start
            (match args_interval args with
             | Some i => if bool_decide (i = 0) then None else Some i
             | None => None
             end)
        else CmdOnce (args_config args) start
    end.

(** [time.sleep(secs)], which refuses a negative length. *)
Definition time_sleep (secs : Z) : M unit := guard (0 <=? secs) ValueError.

(** ** A mailbox, a relay and a clock to run the model on

    Three messages stand for the three kinds of date header: one byte for
    a date before the cutoff, two bytes for a date exactly at the cutoff,
    three bytes for a header that is no date. *)

Definition demo_old : bytes := [Byte.x6f].
Definition demo_new : bytes := [Byte.x6e; Byte.x6e].
Definition demo_bad : bytes := [Byte.x62; Byte.x62; Byte.x62].

Definition demo_header (data : bytes) (name : string) : option string :=
  if bool_decide (name = "Date") then
    match length data with
    | 1%nat => Some "old"
    | 2%nat => Some "new"
    | 3%nat => Some "bad"
    | _ => None
    end
  else None.

Definition demo_parseaddr (s : string) : string := s.

Definition demo_parsedate (s : string) : option datetime :=
  if bool_decide (s = "old") then Some {| instant := 5; aware := true |}
  else if bool_decide (s = "new") then Some {| instant := 10; aware := true |}
  else None.

Definition demo_cutoff : datetime := {| instant := 10; aware := true |}.

Definition demo_clk (n : nat) : Z := 100 * day + Z.of_nat n.

Definition demo_cfg (days : Z) : config :=
  {| mail_retention_days := Some days; smtp_port := 587;
     smtp_use_tls := None; pop_before_smtp := None |}.

(** A forwarder with the cutoff, and one without. *)
Definition demo_self : MailForwarder :=
  {| cfg := demo_cfg 30; start_date := Some demo_cutoff |}.
Definition plain_self : MailForwarder :=
  {| cfg := demo_cfg 30; start_date := None |}.

(** A mailbox that lists [items] and serves them. *)
Definition demo_pop (items : list (option (Z * string))) : pop3_server :=
  {| pop_connect := true; pop_user := true; pop_pass := true;
     pop_uidl := Some items;
     pop_retr := λ n, if n =? 1 then Some [demo_old]
                      else if n =? 2 then Some [demo_new]
                      else if n =? 3 then Some [demo_bad] else None;
     pop_dele := λ _, true;
     pop_quit := true |}.

Definition three_items : list (option (Z * string)) :=
  [Some (1, "u1"); Some (2, "u2"); Some (3, "u3")].
Definition two_items : list (option (Z * string)) :=
  [Some (1, "u1"); Some (2, "u2")].

(** A relay that accepts every message, or rejects every message. *)
Definition demo_smtp (accept : bool) : smtp_server :=
  {| smtp_connect := true; smtp_starttls := true; smtp_login := true;
     smtp_sendmail := λ _, accept; smtp_quit := true;
     pbs_session := demo_pop [] |}.

Definition demo_env (items : list (option (Z * string))) (accept : bool)
  : cycle_env :=
  {| sweep_session := demo_pop items; fetch_session := demo_pop items;
     smtp_sessions := λ _, demo_smtp accept |}.

Definition demo_w0 : world := {| db := ∅; ticks := 0; trace := [] |}.

(** A ledger with an old relayed row, an old failed row and a row
    relayed a day ago, as seen at clock reading [100 * day]. *)
Definition demo_row (age_days : Z) (success : bool) : row :=
  {| forwarded_at := 100 * day - age_days * day; from_addr := "a@b";
     subject := "s"; forward_success := success |}.

Definition demo_db : gmap string row :=
  <["u1" := demo_row 60 true]>
    (<["u2" := demo_row 60 false]> (<["u3" := demo_row 1 true]> ∅)).

Definition demo_w1 : world := {| db := demo_db; ticks := 0; trace := [] |}.

(** A forwarder with a retention window of [days]. *)
Definition sweep_self (days : Z) : MailForwarder :=
  {| cfg := demo_cfg days; start_date := None |}.

(** A mailbox that refuses the connection. *)
Definition down_pop : pop3_server :=
  {| pop_connect := false; pop_user := true; pop_pass := true;
     pop_uidl := Some three_items; pop_retr := λ _, None;
     pop_dele := λ _, true; pop_quit := true |}.

(** The dictionary the listing of [three_items] yields. *)
Definition three_listing : gmap string Z :=
  <["u3" := 3]> (<["u2" := 2]> (<["u1" := 1]> ∅)).

(** Three starts of the program on the three messages: a daemon turn
    whose relay rejects everything, then a one-shot run and a daemon turn
    whose relay accepts everything. *)
Definition demo_invs : list invocation :=
  [Daemon demo_self [demo_env three_items false];
   Once demo_self (demo_env three_items true);
   Daemon demo_self [demo_env three_items true]].

(** A mailbox that lists a fourth message it cannot serve; one that
    refuses every deletion; one whose QUIT fails. *)
Definition four_items : list (option (Z * string)) :=
  three_items ++ [Some (4, "u4")].

Definition four_listing : gmap string Z := <["u4" := 4]> three_listing.

Definition stubborn_pop : pop3_server :=
  {| pop_connect := true; pop_user := true; pop_pass := true;
     pop_uidl := Some three_items; pop_retr := λ _, None;
     pop_dele := λ _, false; pop_quit := true |}.

Definition hangup_pop : pop3_server :=
  {| pop_connect := true; pop_user := true; pop_pass := true;
     pop_uidl := Some three_items; pop_retr := λ _, None;
     pop_dele := λ _, true; pop_quit := false |}.

(** A host that answers every kind of connection attempt with the
    session [srv]. *)
Definition demo_host (srv : pop3_server)
  : security → connect_error + pop3_server := λ _, inr srv.

(** A host whose key is too small for the default context, and which
    serves [srv] once the security level is lowered. *)
Definition old_server (srv : pop3_server)
  : security → connect_error + pop3_server :=
  λ how, match how with
         | StandardTLS =>
             inl (SSLError
                    "[SSL: DH_KEY_TOO_SMALL] dh key too small (_ssl.c:1006)")
         | _ => inr srv
         end.

(** ** Clock and ledger primitives *)

Section forwarder.

(** The wall clock: the value of the [n]-th call of [datetime.now()]. *)
Variable clk : nat → Z.

(** The [email] library: [message_from_bytes(data).get(name)],
    [parseaddr(s)[1]] and [parsedate_to_datetime(s)], which raises on a
    string that is no date ([None] here). *)
Variable header : bytes → string → option string.
Variable parseaddr_addr : string → string.
Variable parsedate_to_datetime : string → option datetime.

Definition datetime_now : M Z :=
  λ w, (inr (clk (ticks w)),
        {| db := db w; ticks := S (ticks w); trace := trace w |}).

(** [SELECT uidl FROM retrieved_mails] as a set. *)
Definition _get_retrieved_uidls : M (gset string) :=
  λ w, (inr (dom (db w)), w).

(** [INSERT OR REPLACE INTO retrieved_mails ...], committed at once. *)
Definition _save_retrieved_mail (uidl from subj : string) (success : bool)
  : M unit :=
  now ← datetime_now;
  (λ w, (inr tt,
         set_db (<[uidl := {| forwarded_at := now; from_addr := from;
                              subject := subj; forward_success := success |}]>
                 (db w)) w)) ;;
  emit (EvSave uidl from subj success).

(** ** POP3 session steps *)

(** [create_pop3_connection(...)], then [user] and [pass_]. *)
Definition pop3_login (srv : pop3_server) : M unit :=
  emit EvPopConnect ;;
  guard (pop_connect srv) PopError ;;
  guard (pop_user srv) PopError ;;
  guard (pop_pass srv) PopError.

(** The loop that fills the dictionary [server_uidls]: a later line
    overwrites an earlier one with the same UIDL. *)
Fixpoint build_server_uidls (items : list (option (Z * string)))
    (server_uidls : gmap string Z) : exn + gmap string Z :=
  match items with
  | [] => inr server_uidls
  | None :: _ => inl ValueError
  | Some (msg_num, uidl) :: rest =>
      build_server_uidls rest (<[uidl := msg_num]> server_uidls)
  end.

(** [pop_conn.uidl()] followed by that loop. *)
Definition pop3_list (srv : pop3_server) : M (gmap string Z) :=
  match pop_uidl srv with
  | None => raise PopError
  | Some uidl_list => lift (build_server_uidls uidl_list ∅)
  end.

Definition pop3_quit (srv : pop3_server) : M unit :=
  guard (pop_quit srv) PopError ;; emit EvPopQuit.

(** ** Retention sweeper: [_delete_old_mails] *)

(** The [SELECT uidl, from_addr, subject ... WHERE forward_success = 1
    AND forwarded_at < ?] query. *)
Definition select_old (cutoff_date : Z) (d : gmap string row)
  : list (string * string * string) :=
  (λ kv : string * row, (kv.1, from_addr kv.2, subject kv.2)) <$>
  map_to_list
    (filter (λ kv : string * row,
               forward_success kv.2 = true ∧ forwarded_at kv.2 < cutoff_date) d).

(** The deletion loop.  The [DELETE] statements stay in the open
    transaction [pending] until [conn.commit()]. *)
Fixpoint delete_loop (srv : pop3_server) (server_uidls : gmap string Z)
    (mails_to_delete : list (string * string * string))
    (pending : gmap string row) (deleted_count : nat)
  : M (gmap string row * nat) :=
  match mails_to_delete with
  | [] => mret (pending, deleted_count)
  | (uidl, _, _) :: rest =>
      match server_uidls !! uidl with
      | Some msg_num =>
          emit (EvDele uidl msg_num) ;;
          guard (pop_dele srv msg_num) PopError ;;
          delete_loop srv server_uidls rest (delete uidl pending)
                      (S deleted_count)
      | None =>
          delete_loop srv server_uidls rest (delete uidl pending)
                      deleted_count
      end
  end.

Definition _delete_old_mails (self : MailForwarder) (srv : pop3_server)
  : M unit :=
  let retention_days := default 30 (mail_retention_days (cfg self)) in
  if bool_decide (retention_days = 0) then mret tt
  else
    now ← datetime_now;
    let cutoff_date := now - retention_days * day in
    d ← (λ w, (inr (db w), w));
    let mails_to_delete := select_old cutoff_date d in
    match mails_to_delete with
    | [] => mret tt
    | _ =>
        try_except
          (pop3_login srv ;;
           server_uidls ← pop3_list srv;
           r ← delete_loop srv server_uidls mails_to_delete d 0%nat;
           (λ w, (inr tt, set_db r.1 w)) ;;         (* conn.commit() *)
           pop3_quit srv ;;
           emit (EvSweepSummary r.2))
          (λ _, emit EvSweepError)
    end.

(** ** Reconciliation, first half: [_fetch_new_mails] *)

(** [b'\r\n'.join(lines)] *)
Fixpoint join_crlf (lines : list bytes) : bytes :=
  match lines with
  | [] => []
  | [l] => l
  | l :: rest => l ++ [Byte.x0d; Byte.x0a] ++ join_crlf rest
  end.

(** The date block: [mail_date] stays [None] when the header is absent
    or empty, and when parsing it raises. *)
Definition mail_date_of (mail_data : bytes) : option datetime :=
  match header mail_data "Date" with
  | Some mail_date_str =>
      if bool_decide (mail_date_str = "") then None
      else parsedate_to_datetime mail_date_str
  | None => None
  end.

Definition sender_of (mail_data : bytes) : string :=
  parseaddr_addr (default "" (header mail_data "From")).

Definition subject_of (mail_data : bytes) : string :=
  default "(件名なし)" (header mail_data "Subject").

(** The tuple appended to [new_mails]. *)
Definition mail_tuple (uidl : string) (mail_data : bytes) : pytuple :=
  [PStr uidl; PBytes mail_data; PStr (sender_of mail_data);
   PStr (subject_of mail_data)].

(** [set(server_uidls.keys()) - retrieved_uidls] *)
Definition new_uidls (server_uidls : gmap string Z)
    (retrieved_uidls : gset string) : gset string :=
  dom server_uidls ∖ retrieved_uidls.

(** Body of [for uidl in new_uidls]: the tuple to append, if any.

    In the source the cutoff block (lines 692-704) is followed by an
    [else:] and an [except Exception as e:] (lines 705-714) that match no
    [if] and no [try] of the block; both hold a [logger.warning] call and
    nothing else, and they are left out here.  The date itself is parsed
    under the [try ... except Exception: pass] of lines 683-688, which is
    [mail_date_of].  An exception raised in this body (a failed [retr], a
    naive date ordered against an aware cutoff) therefore reaches the
    handler of the whole method. *)
Definition fetch_one (self : MailForwarder) (srv : pop3_server)
    (server_uidls : gmap string Z) (uidl : string) : M (option pytuple) :=
  msg_num ← lift (from_option inr (inl KeyError) (server_uidls !! uidl));
  emit (EvRetr uidl msg_num) ;;
  lines ← lift (from_option inr (inl PopError) (pop_retr srv msg_num));
  let mail_data := join_crlf lines in
  match start_date self, mail_date_of mail_data with
  | Some cutoff, Some mail_date =>
      earlier ← lift (dt_lt mail_date cutoff);
      if earlier : bool then
        _save_retrieved_mail uidl (sender_of mail_data)
                             (subject_of mail_data) false ;;
        mret None
      else mret (Some (mail_tuple uidl mail_data))
  | _, _ => mret (Some (mail_tuple uidl mail_data))
  end.

(** The loop itself.  [new_mails] is a local of the method and outlives
    an exception raised in the body, so it is returned next to it. *)
Fixpoint fetch_loop (self : MailForwarder) (srv : pop3_server)
    (server_uidls : gmap string Z) (todo : list string)
    (new_mails : list pytuple) (w : world)
  : (list pytuple * option exn) * world :=
  match todo with
  | [] => ((new_mails, None), w)
  | uidl :: rest =>
      match fetch_one self srv server_uidls uidl w with
      | (inl e, w') => ((new_mails, Some e), w')
      | (inr None, w') => fetch_loop self srv server_uidls rest new_mails w'
      | (inr (Some t), w') =>
          fetch_loop self srv server_uidls rest (new_mails ++ [t]) w'
      end
  end.

Definition _fetch_new_mails (self : MailForwarder) (srv : pop3_server)
  : M (list pytuple) :=
  λ w,
    match (pop3_login srv ;; pop3_list srv) w with
    | (inl _, w1) => (inr [], log EvFetchError w1)
    | (inr server_uidls, w1) =>
        match _get_retrieved_uidls w1 with
        | (inl _, w2) => (inr [], log EvFetchError w2)
        | (inr retrieved_uidls, w2) =>
            let new := new_uidls server_uidls retrieved_uidls in
            match fetch_loop self srv server_uidls (elements new) [] w2 with
            | ((new_mails, Some _), w3) => (inr new_mails, log EvFetchError w3)
            | ((new_mails, None), w3) =>
                let w4 := log (EvFetchSummary (size server_uidls) (size new)) w3 in
                if pop_quit srv then (inr new_mails, log EvPopQuit w4)
                else (inr new_mails, log EvFetchError w4)
            end
        end
    end.

(** ** Reconciliation, second half: relay and record *)

Definition _authenticate_pop_before_smtp (srv : pop3_server) : M unit :=
  try_except (pop3_login srv ;; pop3_quit srv)
             (λ e, emit EvPbsError ;; raise e).

(** [_forward_mail]: [from_addr] and [subject] only reach the log. *)
Definition _forward_mail (self : MailForwarder) (smtp : smtp_server)
    (mail_data : bytes) (from_addr subject : string) : M bool :=
  try_except
    ((if default false (pop_before_smtp (cfg self))
      then _authenticate_pop_before_smtp (pbs_session smtp) else mret tt) ;;
     guard (smtp_connect smtp) SmtpError ;;
     (if bool_decide (smtp_port (cfg self) = 465) then mret tt
      else if default true (smtp_use_tls (cfg self))
           then guard (smtp_starttls smtp) SmtpError else mret tt) ;;
     guard (smtp_login smtp) SmtpError ;;
     guard (smtp_sendmail smtp mail_data) SmtpError ;;
     guard (smtp_quit smtp) SmtpError ;;
     mret true)
    (λ _, emit EvForwardError ;; mret false).

(** [a, b, ... = t] with [arity] names on the left. *)
Definition unpack (arity : nat) (t : pytuple) : exn + pytuple :=
  if bool_decide (length t = arity) then inr t else inl ValueError.

(** The loop [for uidl, mail_data, from_addr, subject(, mail_date) in
    new_mails] of [process_once] (five names) and of [process_daemon]
    (four names); [smtp_at n] is the SMTP session the [n]-th call of
    [_forward_mail] meets.  The fall-through case is a tuple whose fields
    are no strings and bytes; [_fetch_new_mails] builds none. *)
Fixpoint forward_loop (self : MailForwarder) (arity : nat)
    (smtp_at : nat → smtp_server) (n : nat)
    (new_mails : list pytuple) (forwarded_count failed_count : nat)
  : M (nat * nat) :=
  match new_mails with
  | [] => mret (forwarded_count, failed_count)
  | t :: rest =>
      fields ← lift (unpack arity t);
      match fields with
      | PStr uidl :: PBytes mail_data :: PStr from_addr :: PStr subject :: _ =>
          success ← _forward_mail self (smtp_at n) mail_data from_addr subject;
          emit (EvForward uidl success) ;;
          _save_retrieved_mail uidl from_addr subject success ;;
          if success : bool
          then forward_loop self arity smtp_at (S n) rest
                            (S forwarded_count) failed_count
          else forward_loop self arity smtp_at (S n) rest
                            forwarded_count (S failed_count)
      | _ => raise TypeError
      end
  end.

(** Fetch, then relay and record: the reconciliation both entry points
    run after the sweeper. *)
Definition reconcile (self : MailForwarder) (arity : nat) (srv : pop3_server)
    (smtp_at : nat → smtp_server) : M (nat * (nat * nat)) :=
  new_mails ← _fetch_new_mails self srv;
  counts ← forward_loop self arity smtp_at 0%nat new_mails 0%nat 0%nat;
  mret (length new_mails, counts).

(** [process_once]: an exception leaves the method. *)
Definition process_once (self : MailForwarder) (c : cycle_env) : M unit :=
  _delete_old_mails self (sweep_session c) ;;
  r ← reconcile self 5 (fetch_session c) (smtp_sessions c);
  emit (EvOnceSummary r.1 r.2.1 r.2.2).

(** One turn of the [while self.running] loop of [process_daemon]. *)
Definition daemon_cycle (self : MailForwarder) (c : cycle_env) : M unit :=
  try_except
    (_delete_old_mails self (sweep_session c) ;;
     r ← reconcile self 4 (fetch_session c) (smtp_sessions c);
     emit (EvCycleSummary r.1))
    (λ _, emit EvCycleError).

(** [process_daemon], for as many turns as [cycles] is long: the signal
    handler clears [self.running] after the last of them. *)
Fixpoint process_daemon (self : MailForwarder) (cycles : list cycle_env)
  : M unit :=
  match cycles with
  | [] => mret tt
  | c :: rest => daemon_cycle self c ;; process_daemon self rest
  end.

(** *** The daemon with its waits

    [self.running] is set until the signal handler clears it; [alive]
    counts the tests of the flag that still find it set.  A turn tests
    the flag before it waits (line 951), and again in the handler (line
    957) when the body or the wait raised. *)
Definition handler_wait (interval : Z) (alive : nat) : M nat :=
  emit EvCycleError ;;
  match alive with
  | O => mret O
  | S alive' => time_sleep interval ;; mret alive'
  end.

Definition daemon_turn (self : MailForwarder) (interval : Z) (c : cycle_env)
    (alive : nat) : M nat :=
  λ w,
    match (_delete_old_mails self (sweep_session c) ;;
           r ← reconcile self 4 (fetch_session c) (smtp_sessions c);
           emit (EvCycleSummary r.1)) w with
    | (inl _, w1) => handler_wait interval alive w1
    | (inr _, w1) =>
        match alive with
        | O => (inr O, w1)
        | S alive' =>
            match time_sleep interval w1 with
            | (inl _, w2) => handler_wait interval alive' w2
            | (inr _, w2) => (inr alive', w2)
            end
        end
    end.

(** [process_daemon(interval)]: the loop test [while self.running] is one
    more test of the flag; [cycles] is what the successive turns meet. *)
Fixpoint process_daemon_interval (self : MailForwarder) (interval : Z)
    (cycles : list cycle_env) (alive : nat) : M unit :=
  match cycles, alive with
  | c :: rest, S alive' =>
      remaining ← daemon_turn self interval c alive';
      process_daemon_interval self interval rest remaining
  | _, _ => mret tt
  end.

(** ** Notions the statements use *)

(** The dictionary a session's UIDL listing yields, when it yields one. *)
Definition listing (srv : pop3_server) : option (gmap string Z) :=
  match pop_uidl srv with
  | Some uidl_list =>
      match build_server_uidls uidl_list ∅ with
      | inr server_uidls => Some server_uidls
      | inl _ => None
      end
  | None => None
  end.

(** The session gets as far as a listing. *)
Definition session_lists (srv : pop3_server) : bool :=
  pop_connect srv && pop_user srv && pop_pass srv && bool_decide (is_Some (listing srv)).

(** A world after more calls were traced. *)
Definition add_trace (tr : list event) (w : world) : world :=
  {| db := db w; ticks := ticks w; trace := trace w ++ tr |}.

(** The row is what the sweeper's query selects at [cutoff_date]. *)
Definition selected (cutoff_date : Z) (r : row) : Prop :=
  forward_success r = true ∧ forwarded_at r < cutoff_date.

(** The ledger once every selected row is deleted. *)
Definition swept (cutoff_date : Z) (d : gmap string row) : gmap string row :=
  filter (λ kv : string * row, ¬ selected cutoff_date kv.2) d.

(** What the sweeper may add to the trace when it runs on ledger [d]. *)
Definition sweep_event (srv : pop3_server) (d : gmap string row)
    (cutoff_date : Z) (e : event) : Prop :=
  e = EvPopConnect ∨ e = EvPopQuit ∨ e = EvSweepError ∨
  (∃ n, e = EvSweepSummary n) ∨
  (∃ uidl msg_num r s, e = EvDele uidl msg_num ∧ d !! uidl = Some r ∧
     selected cutoff_date r ∧ listing srv = Some s ∧ s !! uidl = Some msg_num).

(** What the body of the fetch loop decides for [uidl]: its message
    number, the message, and whether the cutoff holds the message back;
    or the exception the body raises. *)
Definition verdict (self : MailForwarder) (srv : pop3_server)
    (server_uidls : gmap string Z) (uidl : string)
  : exn + (Z * bytes * bool) :=
  match server_uidls !! uidl with
  | None => inl KeyError
  | Some msg_num =>
      match pop_retr srv msg_num with
      | None => inl PopError
      | Some lines =>
          let mail_data := join_crlf lines in
          match start_date self, mail_date_of mail_data with
          | Some cutoff, Some mail_date =>
              match dt_lt mail_date cutoff with
              | inl e => inl e
              | inr earlier => inr (msg_num, mail_data, earlier)
              end
          | _, _ => inr (msg_num, mail_data, false)
          end
      end
  end.

(** The row written for a message the cutoff holds back, or for one
    whose relay ended with [success]. *)
Definition outcome_row (now : Z) (mail_data : bytes) (success : bool) : row :=
  {| forwarded_at := now; from_addr := sender_of mail_data;
     subject := subject_of mail_data; forward_success := success |}.

(** The batch [new_mails] for the messages [l]. *)
Definition tuples (l : list (string * bytes)) : list pytuple :=
  (λ p, mail_tuple p.1 p.2) <$> l.

(** What the fetch loop over [todo] may add to the trace. *)
Definition fetch_event (self : MailForwarder) (srv : pop3_server)
    (server_uidls : gmap string Z) (todo : list string) (e : event) : Prop :=
  (∃ u n, e = EvRetr u n ∧ u ∈ todo ∧ server_uidls !! u = Some n) ∨
  (∃ u n data, e = EvSave u (sender_of data) (subject_of data) false ∧
     u ∈ todo ∧ verdict self srv server_uidls u = inr (n, data, true)).

(** What one poll may add to the trace when it starts on ledger [d]. *)
Definition poll_event (self : MailForwarder) (srv : pop3_server)
    (d : gmap string row) (e : event) : Prop :=
  e = EvPopConnect ∨ e = EvPopQuit ∨ e = EvFetchError ∨
  (∃ a b, e = EvFetchSummary a b) ∨
  (∃ s u n, listing srv = Some s ∧ e = EvRetr u n ∧ s !! u = Some n ∧
            d !! u = None) ∨
  (∃ s u n data, listing srv = Some s ∧
     e = EvSave u (sender_of data) (subject_of data) false ∧ d !! u = None ∧
     verdict self srv s u = inr (n, data, true)).

(** Events of a POP3 or SMTP session that touch neither ledger nor relay. *)
Definition session_noise (e : event) : Prop :=
  e = EvPopConnect ∨ e = EvPopQuit ∨ e = EvPbsError ∨ e = EvForwardError.

(** What the relay loop over the batch [l] may add to the trace. *)
Definition relay_event (l : list (string * bytes)) (e : event) : Prop :=
  session_noise e ∨
  ∃ u data ok, (u, data) ∈ l ∧
    (e = EvForward u ok ∨
     e = EvSave u (sender_of data) (subject_of data) ok).

(** In [tr], every relay attempt for a message of [l] is followed at
    once by the ledger write of its outcome, sender and subject. *)
Definition recorded_at_once (l : list (string * bytes)) (tr : list event)
  : Prop :=
  ∀ pre post u ok, tr = pre ++ EvForward u ok :: post →
    ∃ data post', (u, data) ∈ l ∧
      post = EvSave u (sender_of data) (subject_of data) ok :: post'.

Definition run_invocation (i : invocation) (w : world) : world :=
  match i with
  | Once self c => (process_once self c w).2
  | Daemon self cycles => (process_daemon self cycles w).2
  end.

Definition run_all (invs : list invocation) (w : world) : world :=
  foldl (λ w i, run_invocation i w) w invs.

(** Once a relay attempt for a UIDL has failed, the failure is written
    to the ledger at once, the row is still there with [forward_success]
    unset, and no later attempt was made for the UIDL. *)
Definition failures_final (w : world) : Prop :=
  ∀ pre post u, trace w = pre ++ EvForward u false :: post →
    (∃ f s post', post = EvSave u f s false :: post') ∧
    (∀ ok, EvForward u ok ∉ post) ∧
    (∃ r, db w !! u = Some r ∧ forward_success r = false).

(** Every session [_forward_mail] opens for [mail_data] goes through: the
    POP-before-SMTP session when it is configured, then connect, STARTTLS
    where it is asked for, login, sendmail and quit. *)
Definition relay_accepts (self : MailForwarder) (smtp : smtp_server)
    (mail_data : bytes) : bool :=
  (if default false (pop_before_smtp (cfg self))
   then pop_connect (pbs_session smtp) && pop_user (pbs_session smtp) &&
        pop_pass (pbs_session smtp) && pop_quit (pbs_session smtp)
   else true) &&
  smtp_connect smtp &&
  (bool_decide (smtp_port (cfg self) = 465) ||
   negb (default true (smtp_use_tls (cfg self))) || smtp_starttls smtp) &&
  smtp_login smtp && smtp_sendmail smtp mail_data && smtp_quit smtp.

(** Kinds of events, for counting them. *)
Definition is_forward (e : event) : bool :=
  match e with EvForward _ _ => true | _ => false end.
Definition is_dele (e : event) : bool :=
  match e with EvDele _ _ => true | _ => false end.
Definition is_cycle_summary (e : event) : bool :=
  match e with EvCycleSummary _ => true | _ => false end.

Definition is_retr (e : event) : bool :=
  match e with EvRetr _ _ => true | _ => false end.
Definition is_save (e : event) : bool :=
  match e with EvSave _ _ _ _ => true | _ => false end.

(** The message number the listing [l] leaves for [uidl]: that of the
    last line naming it. *)
Definition last_line (l : list (Z * string)) (uidl : string) : option Z :=
  last (filter (λ p : Z * string, p.2 = uidl) l).*1.

(** Whether the relay accepts each message of the batch [l], the [i]-th
    message meeting the session [smtp_at (n + i)]. *)
Fixpoint relay_outcomes (self : MailForwarder) (smtp_at : nat → smtp_server)
    (n : nat) (l : list (string * bytes)) : list bool :=
  match l with
  | [] => []
  | p :: rest =>
      relay_accepts self (smtp_at n) p.2 ::
      relay_outcomes self smtp_at (S n) rest
  end.

(** ** Basic facts about the primitives *)

Ltac munfold :=
  unfold mbind, M_bind, bind, mret, M_ret, ret, emit, guard, raise, lift,
         try_except in *.

Lemma save_run uidl from subj success w :
  _save_retrieved_mail uidl from subj success w =
  (inr tt,
   {| db := <[uidl := {| forwarded_at := clk (ticks w); from_addr := from;
                         subject := subj; forward_success := success |}]> (db w);
      ticks := S (ticks w);
      trace := trace w ++ [EvSave uidl from subj success] |}).
Proof. reflexivity. Qed.

Lemma pop3_login_run srv w :
  pop3_login srv w =
  (if pop_connect srv && pop_user srv && pop_pass srv
   then inr tt else inl PopError, log EvPopConnect w).
Proof.
  unfold pop3_login. munfold.
  destruct (pop_connect srv), (pop_user srv), (pop_pass srv); reflexivity.
Qed.

Lemma pop3_list_run srv w :
  pop3_list srv w =
  (match listing srv with
   | Some s => inr s
   | None => match pop_uidl srv with
             | Some l => match build_server_uidls l ∅ with
                         | inl e => inl e | inr s => inr s end
             | None => inl PopError
             end
   end, w).
Proof.
  unfold pop3_list, listing. munfold.
  destruct (pop_uidl srv) as [l|]; [|done].
  by destruct (build_server_uidls l ∅).
Qed.

Ltac split_ifs :=
  repeat match goal with
         | |- context [if ?b then _ else _] => destruct b eqn:?; simpl
         end.

Lemma forward_mail_run self smtp data from subj w :
  ∃ b tr, _forward_mail self smtp data from subj w =
            (inr b, {| db := db w; ticks := ticks w; trace := trace w ++ tr |})
          ∧ Forall session_noise tr.
Proof.
  unfold _forward_mail, _authenticate_pop_before_smtp, pop3_quit, pop3_login.
  munfold. unfold session_noise, log. destruct w as [d k tr0]. simpl.
  split_ifs; rewrite <- ?app_assoc; simpl;
    (eexists _, _; split;
       [reflexivity
       | repeat (apply List.Forall_cons; [simpl; auto 6|]); apply List.Forall_nil]) ||
    (eexists _, []; rewrite app_nil_r; split; [reflexivity | constructor]).
Qed.

Ltac tr_norm :=
  unfold log, set_db, add_trace; simpl; rewrite <- ?app_assoc; simpl.

Lemma add_trace_nil w : add_trace [] w = w.
Proof. destruct w. unfold add_trace. simpl. by rewrite app_nil_r. Qed.

Lemma add_trace_app tr1 tr2 w :
  add_trace tr2 (add_trace tr1 w) = add_trace (tr1 ++ tr2) w.
Proof. unfold add_trace. simpl. by rewrite app_assoc. Qed.

Lemma log_add_trace e w : log e w = add_trace [e] w.
Proof. reflexivity. Qed.

(** ** The sweeper *)

Lemma select_old_spec cutoff d uidl from subj :
  (uidl, from, subj) ∈ select_old cutoff d ↔
  ∃ r, d !! uidl = Some r ∧ selected cutoff r ∧
       from = from_addr r ∧ subj = subject r.
Proof.
  unfold select_old, selected. rewrite list_elem_of_fmap. split.
  - intros [[k r] [Heq Hin]]. simpl in Heq. simplify_eq.
    rewrite elem_of_map_to_list, map_lookup_filter_Some in Hin.
    destruct Hin as [Hl Hp]. simpl in Hp. eauto.
  - intros (r & Hl & Hp & -> & ->). exists (uidl, r). split; [done|].
    rewrite elem_of_map_to_list, map_lookup_filter_Some. done.
Qed.

Lemma foldl_delete_lookup (rows : list (string * string * string))
    (pending : gmap string row) k :
  foldl (λ p (x : string * string * string), delete x.1.1 p) pending rows !! k =
  if decide (k ∈ rows.*1.*1) then None else pending !! k.
Proof.
  revert pending. induction rows as [|[[u f] s] rows IH]; intros pending.
  - destruct (decide (k ∈ ([] : list (string * string * string)).*1.*1))
      as [H|H]; [by apply elem_of_nil in H | done].
  - change (foldl (λ p (x : string * string * string), delete x.1.1 p)
                  (delete u pending) rows !! k =
            if decide (k ∈ u :: rows.*1.*1) then None else pending !! k).
    rewrite IH.
    destruct (decide (k ∈ rows.*1.*1)) as [H1|H1];
      destruct (decide (k ∈ u :: rows.*1.*1)) as [H2|H2]; try done.
    + exfalso. apply H2. by right.
    + apply elem_of_cons in H2 as [->|?]; [|done]. by rewrite lookup_delete_eq.
    + rewrite lookup_delete_ne; [done|]. intros ->. apply H2. by left.
Qed.

Lemma swept_select_old cutoff d :
  foldl (λ p (x : string * string * string), delete x.1.1 p) d
        (select_old cutoff d) = swept cutoff d.
Proof.
  apply map_eq. intros k. rewrite foldl_delete_lookup. unfold swept.
  destruct (d !! k) as [r|] eqn:Hk.
  - case_decide as Hin.
    + symmetry. rewrite map_lookup_filter_None. right. intros r' Hr' Hn.
      simpl in Hn. apply Hn.
      apply list_elem_of_fmap in Hin as [[u f] [-> Hin]].
      apply list_elem_of_fmap in Hin as [[[u' f'] s'] [Heq Hin]].
      simpl in *. simplify_eq.
      apply select_old_spec in Hin as (r'' & ? & ? & _). by simplify_eq.
    + symmetry. rewrite map_lookup_filter_Some. split; [done|]. simpl.
      intros Hs. apply Hin.
      apply list_elem_of_fmap. exists (k, from_addr r). split; [done|].
      apply list_elem_of_fmap. exists (k, from_addr r, subject r).
      split; [done|]. apply select_old_spec. eauto.
  - case_decide; symmetry; rewrite map_lookup_filter_None; left; done.
Qed.

Lemma delete_loop_run srv (s : gmap string Z) rows pending cnt w :
  ∃ r tr, delete_loop srv s rows pending cnt w = (r, add_trace tr w) ∧
    Forall (λ e, ∃ u n f sj, e = EvDele u n ∧ (u, f, sj) ∈ rows ∧
                             s !! u = Some n) tr ∧
    match r with
    | inr pc =>
        pc.1 = foldl (λ p (x : string * string * string), delete x.1.1 p)
                     pending rows ∧
        ∀ u f sj n, (u, f, sj) ∈ rows → s !! u = Some n →
                    pop_dele srv n = true ∧ EvDele u n ∈ tr
    | inl _ =>
        ∃ u f sj n, (u, f, sj) ∈ rows ∧ s !! u = Some n ∧
                    pop_dele srv n = false
    end.
Proof.
  revert pending cnt w.
  induction rows as [|[[u f] sj] rows IH]; intros pending cnt w.
  - exists (inr (pending, cnt)), []. rewrite add_trace_nil.
    split; [done|]. split; [constructor|]. split; [done|].
    intros ???? Hin. by apply elem_of_nil in Hin.
  - simpl. destruct (s !! u) as [n|] eqn:Hu.
    + munfold. destruct (pop_dele srv n) eqn:Hd; simpl.
      * destruct (IH (delete u pending) (S cnt) (log (EvDele u n) w))
          as (r & tr & Hrun & Hev & Hr).
        exists r, (EvDele u n :: tr). rewrite Hrun.
        split; [by rewrite log_add_trace, add_trace_app|].
        split.
        { constructor.
          - exists u, n, f, sj. split; [done|]. split; [by left|done].
          - eapply Forall_impl; [exact Hev|]. simpl.
            intros e (u' & n' & f' & sj' & -> & Hin & Hs).
            exists u', n', f', sj'. split; [done|]. split; [by right|done]. }
        destruct r as [e|pc].
        { destruct Hr as (u' & f' & sj' & n' & Hin & Hs & Hf).
          exists u', f', sj', n'. split; [by right|done]. }
        destruct Hr as [Hp Hall]. split; [done|].
        intros u' f' sj' n' Hin Hs.
        apply elem_of_cons in Hin as [Heq|Hin].
        { simplify_eq. split; [done|by left]. }
        destruct (Hall _ _ _ _ Hin Hs) as [? ?]. split; [done|by right].
      * exists (inl PopError), [EvDele u n]. split; [done|].
        split.
        { constructor; [|constructor].
          exists u, n, f, sj. split; [done|]. split; [by left|done]. }
        exists u, f, sj, n. split; [by left|done].
    + destruct (IH (delete u pending) cnt w) as (r & tr & Hrun & Hev & Hr).
      exists r, tr. split; [done|]. split.
      { eapply Forall_impl; [exact Hev|]. simpl.
        intros e (u' & n' & f' & sj' & -> & Hin & Hs).
        exists u', n', f', sj'. split; [done|]. split; [by right|done]. }
      destruct r as [e|pc].
      { destruct Hr as (u' & f' & sj' & n' & Hin & Hs & Hf).
        exists u', f', sj', n'. split; [by right|done]. }
      destruct Hr as [Hp Hall]. split; [done|].
      intros u' f' sj' n' Hin Hs.
      apply elem_of_cons in Hin as [Heq|Hin]; [simplify_eq|].
      by apply (Hall _ _ _ _ Hin Hs).
Qed.

Lemma swept_lookup cutoff d k :
  swept cutoff d !! k =
  match d !! k with
  | Some r => if decide (selected cutoff r) then None else Some r
  | None => None
  end.
Proof.
  unfold swept. destruct (d !! k) as [r|] eqn:Hk.
  - case_decide as Hs.
    + rewrite map_lookup_filter_None. right. intros r' ? Hn. simpl in Hn.
      by simplify_eq.
    + rewrite map_lookup_filter_Some. done.
  - rewrite map_lookup_filter_None. by left.
Qed.

Lemma sweep_off self srv w :
  default 30 (mail_retention_days (cfg self)) = 0 →
  _delete_old_mails self srv w = (inr tt, w).
Proof.
  intros H0. unfold _delete_old_mails. by rewrite bool_decide_eq_true_2.
Qed.

Lemma sweep_run self srv w :
  default 30 (mail_retention_days (cfg self)) ≠ 0 →
  let cutoff :=
    clk (ticks w) - default 30 (mail_retention_days (cfg self)) * day in
  ∃ d' tr,
    _delete_old_mails self srv w =
      (inr tt, {| db := d'; ticks := S (ticks w); trace := trace w ++ tr |}) ∧
    Forall (sweep_event srv (db w) cutoff) tr ∧
    (d' = db w ∨ (d' = swept cutoff (db w) ∧ session_lists srv = true)) ∧
    (select_old cutoff (db w) = [] → tr = []) ∧
    (pop_connect srv && pop_user srv && pop_pass srv = true →
     ∀ s, listing srv = Some s →
       (∀ u r n, db w !! u = Some r → selected cutoff r → s !! u = Some n →
                 pop_dele srv n = true) →
       d' = swept cutoff (db w) ∧
       ∀ u r n, db w !! u = Some r → selected cutoff r → s !! u = Some n →
                EvDele u n ∈ tr).
Proof.
  intros Hdays cutoff. unfold _delete_old_mails.
  rewrite bool_decide_eq_false_2 by done.
  munfold. unfold datetime_now. cbv beta. cbn [db ticks trace]. fold cutoff.
  assert (Hsw : select_old cutoff (db w) = [] → swept cutoff (db w) = db w).
  { intros Hnil. rewrite <- swept_select_old. by rewrite Hnil. }
  destruct (select_old cutoff (db w)) as [|x0 rows] eqn:Hsel.
  { exists (db w), []. rewrite app_nil_r. split; [done|].
    split; [constructor|]. split; [by left|]. split; [done|].
    intros _ s _ _. split; [by rewrite Hsw|].
    intros u r n Hu Hs _. exfalso.
    assert (Hin : (u, from_addr r, subject r) ∈ select_old cutoff (db w))
      by (apply select_old_spec; eauto).
    rewrite Hsel in Hin. by apply elem_of_nil in Hin. }
  set (w1 := {| db := db w; ticks := S (ticks w); trace := trace w |}).
  rewrite pop3_login_run.
  destruct (pop_connect srv && pop_user srv && pop_pass srv) eqn:Hlogin.
  2: { exists (db w), [EvPopConnect; EvSweepError]. tr_norm.
       split; [done|].
       split; [repeat (apply List.Forall_cons; [unfold sweep_event; auto 6|]);
               apply List.Forall_nil|].
       split; [by left|]. split; [done|]. done. }
  rewrite pop3_list_run.
  destruct (listing srv) as [s|] eqn:Hlist.
  2: { exists (db w), [EvPopConnect; EvSweepError].
       assert (Hraise : ∃ e, match pop_uidl srv with
                             | Some l => match build_server_uidls l ∅ with
                                         | inl e => inl e
                                         | inr s => inr s end
                             | None => inl PopError
                             end = (inl e : exn + gmap string Z)).
       { unfold listing in Hlist. destruct (pop_uidl srv) as [l|]; [|by eexists].
         destruct (build_server_uidls l ∅); [by eexists|done]. }
       destruct Hraise as [e ->]. tr_norm.
       split; [done|].
       split; [repeat (apply List.Forall_cons; [unfold sweep_event; auto 6|]);
               apply List.Forall_nil|].
       split; [by left|]. split; [done|]. done. }
  destruct (delete_loop_run srv s (x0 :: rows) (db w) 0%nat
                            (log EvPopConnect w1))
    as (r & tr & Hrun & Hev & Hr).
  rewrite Hrun. rewrite <- Hsel in Hev, Hr.
  assert (Hev' : Forall (sweep_event srv (db w) cutoff) tr).
  { eapply Forall_impl; [exact Hev|]. simpl.
    intros e (u & n & f & sj & -> & Hin & Hs).
    apply select_old_spec in Hin as (r0 & ? & ? & _).
    unfold sweep_event. do 4 right. by exists u, n, r0, s. }
  assert (Hlists : session_lists srv = true).
  { unfold session_lists. rewrite Hlogin, Hlist.
    apply andb_true_iff. split; [done|].
    apply bool_decide_eq_true_2. by eexists. }
  destruct r as [e|[pending cnt]].
  { destruct Hr as (u & f & sj & n & Hin & Hs & Hf).
    exists (db w), (EvPopConnect :: tr ++ [EvSweepError]). tr_norm.
    split; [done|].
    split.
    { constructor; [unfold sweep_event; auto|].
      apply Forall_app. split; [done|].
      constructor; [unfold sweep_event; auto 6|constructor]. }
    split; [by left|]. split; [done|].
    intros _ s' Hs' Hok. exfalso. simplify_eq.
    apply select_old_spec in Hin as (r0 & Hr0 & Hsel0 & _).
    specialize (Hok _ _ _ Hr0 Hsel0 Hs). congruence. }
  destruct Hr as [Hp Hall]. rewrite swept_select_old in Hp. simpl in Hp.
  subst pending. unfold pop3_quit. munfold.
  assert (Hdele : ∀ u r0 n, db w !! u = Some r0 → selected cutoff r0 →
                            s !! u = Some n → EvDele u n ∈ tr).
  { intros u r0 n Hu Hs Hn.
    assert (Hin : (u, from_addr r0, subject r0) ∈ select_old cutoff (db w))
      by (apply select_old_spec; eauto).
    by destruct (Hall _ _ _ _ Hin Hn). }
  destruct (pop_quit srv).
  - exists (swept cutoff (db w)),
           (EvPopConnect :: tr ++ [EvPopQuit; EvSweepSummary cnt]).
    tr_norm. split; [done|]. split.
    { constructor; [unfold sweep_event; auto|].
      apply Forall_app. split; [done|].
      repeat (apply List.Forall_cons; [unfold sweep_event; eauto 7|]).
      apply List.Forall_nil. }
    split; [by right|]. split; [done|].
    intros _ s' Hs' _. simplify_eq. split; [done|].
    intros u r0 n ???. right. apply elem_of_app. left. eauto.
  - exists (swept cutoff (db w)), (EvPopConnect :: tr ++ [EvSweepError]).
    tr_norm. split; [done|]. split.
    { constructor; [unfold sweep_event; auto|].
      apply Forall_app. split; [done|].
      constructor; [unfold sweep_event; auto 6|constructor]. }
    split; [by right|]. split; [done|].
    intros _ s' Hs' _. simplify_eq. split; [done|].
    intros u r0 n ???. right. apply elem_of_app. left. eauto.
Qed.

(** ** The fetch loop *)

Lemma fetch_one_run self srv (s : gmap string Z) u w :
  fetch_one self srv s u w =
  match verdict self srv s u with
  | inl e => (inl e, match s !! u with
                     | Some n => log (EvRetr u n) w
                     | None => w
                     end)
  | inr (n, data, true) =>
      (inr None,
       {| db := <[u := outcome_row (clk (ticks w)) data false]> (db w);
          ticks := S (ticks w);
          trace := trace w ++ [EvRetr u n;
                               EvSave u (sender_of data) (subject_of data)
                                      false] |})
  | inr (n, data, false) =>
      (inr (Some (mail_tuple u data)), log (EvRetr u n) w)
  end.
Proof.
  unfold fetch_one, verdict. munfold.
  destruct (s !! u) as [n|]; simpl; [|done].
  destruct (pop_retr srv n) as [lines|]; simpl; [|done].
  destruct (start_date self) as [c|]; [|done].
  destruct (mail_date_of (join_crlf lines)) as [d|]; [|done].
  destruct (dt_lt d c) as [e|[|]]; simpl; [done| |done].
  unfold log, outcome_row. simpl. by rewrite <- app_assoc.
Qed.

Lemma verdict_lookup self srv (s : gmap string Z) u n data b :
  verdict self srv s u = inr (n, data, b) → s !! u = Some n.
Proof.
  unfold verdict. destruct (s !! u) as [m|]; [|done].
  destruct (pop_retr srv m); [|done].
  destruct (start_date self); [|by intros [= -> _ _]].
  destruct (mail_date_of _); [|by intros [= -> _ _]].
  destruct (dt_lt _ _); [done|]. by intros [= -> _ _].
Qed.

Lemma fetch_event_mono self srv s todo u e :
  fetch_event self srv s todo e → fetch_event self srv s (u :: todo) e.
Proof.
  intros [(u' & n & -> & Hin & Hs)|(u' & n & data & -> & Hin & Hv)].
  - left. exists u', n. split; [done|]. split; [by right|done].
  - right. exists u', n, data. split; [done|]. split; [by right|done].
Qed.

Lemma fetch_loop_run self srv (s : gmap string Z) todo acc w nm err w' :
  fetch_loop self srv s todo acc w = ((nm, err), w') →
  ∃ l tr,
    nm = acc ++ tuples l ∧
    l.*1 `sublist_of` todo ∧
    trace w' = trace w ++ tr ∧
    Forall (fetch_event self srv s todo) tr ∧
    (∀ u data, (u, data) ∈ l → ∃ n, verdict self srv s u = inr (n, data, false)) ∧
    (∀ k, db w' !! k = db w !! k ∨
          ∃ n data t, k ∈ todo ∧ verdict self srv s k = inr (n, data, true) ∧
                      db w' !! k = Some (outcome_row t data false)) ∧
    (err = None →
     ∀ u, u ∈ todo →
       ∃ n data b, verdict self srv s u = inr (n, data, b) ∧ EvRetr u n ∈ tr ∧
                   if b : bool
                   then ∃ t, db w' !! u = Some (outcome_row t data false)
                   else (u, data) ∈ l).
Proof.
  revert acc w. induction todo as [|u rest IH]; intros acc w Hrun.
  - simpl in Hrun. simplify_eq. exists [], [].
    rewrite !app_nil_r. split; [done|]. split; [done|]. split; [done|].
    split; [constructor|].
    split; [intros ?? Hin; by apply elem_of_nil in Hin|].
    split; [intros k; by left|].
    intros _ u Hin. by apply elem_of_nil in Hin.
  - simpl in Hrun. rewrite fetch_one_run in Hrun.
    destruct (verdict self srv s u) as [e|[[n data] b]] eqn:Hv.
    + simplify_eq. exists [].
      exists (match s !! u with Some n => [EvRetr u n] | None => [] end).
      rewrite app_nil_r. split; [done|]. split; [apply sublist_nil_l|].
      split; [destruct (s !! u); [done|by rewrite app_nil_r]|].
      split.
      { destruct (s !! u) as [n|] eqn:Hs; [|constructor].
        constructor; [|constructor]. left. exists u, n.
        split; [done|]. split; [by left|done]. }
      split; [intros ?? Hin; by apply elem_of_nil in Hin|].
      split; [intros k; left; by destruct (s !! u)|done].
    + pose proof (verdict_lookup _ _ _ _ _ _ _ Hv) as Hs.
      destruct b.
      * apply IH in Hrun as (l & tr & Hnm & Hsub & Htr & Hev & Hl & Hdb & Hall).
        simpl in Htr. rewrite <- app_assoc in Htr.
        exists l, ([EvRetr u n; EvSave u (sender_of data) (subject_of data) false]
                   ++ tr).
        split; [done|]. split; [by apply sublist_cons|]. split; [done|].
        split.
        { apply Forall_app. split.
          - constructor; [left; exists u, n; split; [done|]; split;
                          [by left|done]|].
            constructor; [|constructor]. right. exists u, n, data.
            split; [done|]. split; [by left|done].
          - eapply Forall_impl; [exact Hev|]. intros e. apply fetch_event_mono. }
        split; [done|]. split.
        { intros k. destruct (Hdb k) as [Hk|(n' & data' & t & Hin & Hv' & Hk)].
          - simpl in Hk. destruct (decide (u = k)) as [->|Hne].
            + rewrite lookup_insert_eq in Hk. right.
              exists n, data, (clk (ticks w)). split; [by left|done].
            + rewrite lookup_insert_ne in Hk by done. by left.
          - right. exists n', data', t. split; [by right|done]. }
        intros Herr u' Hin. apply elem_of_cons in Hin as [->|Hin].
        { exists n, data, true. split; [done|].
          split; [apply elem_of_app; left; by left|].
          destruct (Hdb u) as [Hk|(n' & data' & t & _ & Hv' & Hk)].
          - simpl in Hk. rewrite lookup_insert_eq in Hk. eauto.
          - rewrite Hv in Hv'. simplify_eq. eauto. }
        destruct (Hall Herr u' Hin) as (n' & data' & b' & Hv' & Hretr & Hb').
        exists n', data', b'. split; [done|].
        split; [apply elem_of_app; by right|done].
      * apply IH in Hrun as (l & tr & Hnm & Hsub & Htr & Hev & Hl & Hdb & Hall).
        simpl in Htr. rewrite <- app_assoc in Htr.
        exists ((u, data) :: l), ([EvRetr u n] ++ tr).
        split; [by rewrite Hnm, <- app_assoc|].
        split; [by apply sublist_skip|]. split; [done|].
        split.
        { apply Forall_app. split.
          - constructor; [|constructor]. left. exists u, n.
            split; [done|]. split; [by left|done].
          - eapply Forall_impl; [exact Hev|]. intros e. apply fetch_event_mono. }
        split.
        { intros u' data' Hin. apply elem_of_cons in Hin as [Heq|Hin].
          - simplify_eq. eauto.
          - by apply Hl. }
        split.
        { intros k. destruct (Hdb k) as [Hk|(n' & data' & t & Hin & Hv' & Hk)].
          - by left.
          - right. exists n', data', t. split; [by right|done]. }
        intros Herr u' Hin. apply elem_of_cons in Hin as [->|Hin].
        { exists n, data, false. split; [done|].
          split; [apply elem_of_app; left; by left|by left]. }
        destruct (Hall Herr u' Hin) as (n' & data' & b' & Hv' & Hretr & Hb').
        exists n', data', b'. split; [done|].
        split; [apply elem_of_app; by right|].
        destruct b'; [done|by right].
Qed.

Lemma elem_of_new_uidls (s : gmap string Z) (d : gmap string row) u :
  u ∈ elements (new_uidls s (dom d)) ↔ is_Some (s !! u) ∧ d !! u = None.
Proof.
  unfold new_uidls. rewrite elem_of_elements, elem_of_difference.
  rewrite !elem_of_dom. rewrite <- eq_None_not_Some. done.
Qed.

Lemma fetch_run self srv w :
  ∃ l w' tr,
    _fetch_new_mails self srv w = (inr (tuples l), w') ∧
    trace w' = trace w ++ tr ∧
    Forall (poll_event self srv (db w)) tr ∧
    NoDup l.*1 ∧
    (∀ u data, (u, data) ∈ l →
       db w !! u = None ∧ db w' !! u = None ∧
       ∃ s n, listing srv = Some s ∧ verdict self srv s u = inr (n, data, false)) ∧
    (∀ k, db w' !! k = db w !! k ∨
          ∃ s n data t, listing srv = Some s ∧ db w !! k = None ∧
            verdict self srv s k = inr (n, data, true) ∧
            db w' !! k = Some (outcome_row t data false)) ∧
    (EvFetchError ∉ tr →
     pop_connect srv && pop_user srv && pop_pass srv = true ∧
     pop_quit srv = true ∧
     ∃ s, listing srv = Some s ∧
       ∀ u, is_Some (s !! u) → db w !! u = None →
         ∃ n data b, verdict self srv s u = inr (n, data, b) ∧
           EvRetr u n ∈ tr ∧
           if b : bool
           then ∃ t, db w' !! u = Some (outcome_row t data false)
           else (u, data) ∈ l).
Proof.
  unfold _fetch_new_mails. munfold.
  rewrite pop3_login_run.
  destruct (pop_connect srv && pop_user srv && pop_pass srv) eqn:Hlogin.
  2: { exists [], (log EvFetchError (log EvPopConnect w)),
              [EvPopConnect; EvFetchError].
       split; [done|]. split; [by tr_norm|].
       split; [repeat (apply List.Forall_cons; [unfold poll_event; auto 6|]);
               apply List.Forall_nil|].
       split; [constructor|].
       split; [intros ?? Hin; by apply elem_of_nil in Hin|].
       split; [intros k; by left|].
       intros Hno. exfalso. apply Hno. right. by left. }
  rewrite pop3_list_run.
  destruct (listing srv) as [s|] eqn:Hlist.
  2: { assert (Hraise : ∃ e, match pop_uidl srv with
                             | Some l => match build_server_uidls l ∅ with
                                         | inl e => inl e
                                         | inr s => inr s end
                             | None => inl PopError
                             end = (inl e : exn + gmap string Z)).
       { unfold listing in Hlist. destruct (pop_uidl srv) as [l|]; [|by eexists].
         destruct (build_server_uidls l ∅); [by eexists|done]. }
       destruct Hraise as [e ->].
       exists [], (log EvFetchError (log EvPopConnect w)),
              [EvPopConnect; EvFetchError].
       split; [done|]. split; [by tr_norm|].
       split; [repeat (apply List.Forall_cons; [unfold poll_event; auto 6|]);
               apply List.Forall_nil|].
       split; [constructor|].
       split; [intros ?? Hin; by apply elem_of_nil in Hin|].
       split; [intros k; by left|].
       intros Hno. exfalso. apply Hno. right. by left. }
  unfold _get_retrieved_uidls. cbn [db log].
  destruct (fetch_loop self srv s (elements (new_uidls s (dom (db w)))) []
                       (log EvPopConnect w)) as [[nm err] w3] eqn:Hloop.
  apply fetch_loop_run in Hloop
    as (l & tr & Hnm & Hsub & Htr & Hev & Hl & Hdb & Hall).
  simpl in Hnm, Htr, Hdb. subst nm.
  assert (Hev' : Forall (poll_event self srv (db w)) tr).
  { eapply Forall_impl; [exact Hev|]. intros e.
    intros [(u & n & -> & Hin & Hs)|(u & n & data & -> & Hin & Hv)];
      apply elem_of_new_uidls in Hin as [_ Hnone]; unfold poll_event.
    - do 4 right. left. by exists s, u, n.
    - do 5 right. by exists s, u, n, data. }
  assert (Hnd : NoDup l.*1).
  { eapply sublist_NoDup; [|exact Hsub]. apply NoDup_elements. }
  assert (Hl' : ∀ u data, (u, data) ∈ l →
            db w !! u = None ∧ db w3 !! u = None ∧
            ∃ s0 n, Some s = Some s0 ∧ verdict self srv s0 u = inr (n, data, false)).
  { intros u data Hin. destruct (Hl _ _ Hin) as [n Hv].
    assert (Hu : u ∈ elements (new_uidls s (dom (db w)))).
    { eapply elem_of_sublist; [|exact Hsub].
      apply list_elem_of_fmap. by exists (u, data). }
    apply elem_of_new_uidls in Hu as [_ Hnone].
    split; [done|]. split; [|by exists s, n].
    destruct (Hdb u) as [Hk|(n' & data' & t & _ & Hv' & _)]; [congruence|].
    rewrite Hv in Hv'. done. }
  assert (Hdb' : ∀ k, db w3 !! k = db w !! k ∨
            ∃ s0 n data t, Some s = Some s0 ∧ db w !! k = None ∧
              verdict self srv s0 k = inr (n, data, true) ∧
              db w3 !! k = Some (outcome_row t data false)).
  { intros k. destruct (Hdb k) as [Hk|(n & data & t & Hin & Hv & Hk)]; [by left|].
    apply elem_of_new_uidls in Hin as [_ Hnone].
    right. by exists s, n, data, t. }
  destruct err as [e|].
  { exists l, (log EvFetchError w3), (EvPopConnect :: tr ++ [EvFetchError]).
    split; [done|].
    split; [tr_norm; rewrite Htr; by tr_norm|].
    split.
    { constructor; [unfold poll_event; auto|]. apply Forall_app.
      split; [done|]. constructor; [unfold poll_event; auto|constructor]. }
    split; [done|]. split; [done|]. split; [done|].
    intros Hno. exfalso. apply Hno. right. apply elem_of_app. right. by left. }
  assert (Hall' : ∀ u, is_Some (s !! u) → db w !! u = None →
            ∃ n data b, verdict self srv s u = inr (n, data, b) ∧
              EvRetr u n ∈ tr ∧
              if b : bool
              then ∃ t, db w3 !! u = Some (outcome_row t data false)
              else (u, data) ∈ l).
  { intros u Hs Hnone. apply Hall; [done|]. by apply elem_of_new_uidls. }
  destruct (pop_quit srv) eqn:Hquit.
  - exists l, (log EvPopQuit
                 (log (EvFetchSummary (size s)
                         (size (new_uidls s (dom (db w))))) w3)),
           (EvPopConnect :: tr ++
              [EvFetchSummary (size s) (size (new_uidls s (dom (db w))));
               EvPopQuit]).
    split; [done|].
    split; [tr_norm; rewrite Htr; by tr_norm|].
    split.
    { constructor; [unfold poll_event; auto|]. apply Forall_app.
      split; [done|].
      repeat (apply List.Forall_cons; [unfold poll_event; eauto 8|]).
      apply List.Forall_nil. }
    split; [done|]. split; [done|]. split; [done|].
    intros _. split; [done|]. split; [done|]. exists s. split; [done|].
    intros u Hs Hnone.
    destruct (Hall' u Hs Hnone) as (n & data & b & Hv & Hretr & Hb).
    exists n, data, b. split; [done|]. split; [|done].
    right. apply elem_of_app. by left.
  - exists l, (log EvFetchError
                 (log (EvFetchSummary (size s)
                         (size (new_uidls s (dom (db w))))) w3)),
           (EvPopConnect :: tr ++
              [EvFetchSummary (size s) (size (new_uidls s (dom (db w))));
               EvFetchError]).
    split; [done|].
    split; [tr_norm; rewrite Htr; by tr_norm|].
    split.
    { constructor; [unfold poll_event; auto|]. apply Forall_app.
      split; [done|].
      repeat (apply List.Forall_cons; [unfold poll_event; eauto 8|]).
      apply List.Forall_nil. }
    split; [done|]. split; [done|]. split; [done|].
    intros Hno. exfalso. apply Hno. right. apply elem_of_app. right.
    right. by left.
Qed.

(** ** The relay loop *)

Lemma forward_step self smtp n u data rest fc ff w :
  ∃ ok noise,
    Forall session_noise noise ∧
    forward_loop self 4 smtp n (mail_tuple u data :: rest) fc ff w =
    forward_loop self 4 smtp (S n) rest
      (if ok : bool then S fc else fc) (if ok : bool then ff else S ff)
      {| db := <[u := outcome_row (clk (ticks w)) data ok]> (db w);
         ticks := S (ticks w);
         trace := trace w ++ noise ++
                  [EvForward u ok;
                   EvSave u (sender_of data) (subject_of data) ok] |}.
Proof.
  destruct (forward_mail_run self (smtp n) data (sender_of data)
                             (subject_of data) w) as (ok & noise & Hrun & Hn).
  exists ok, noise. split; [done|].
  unfold mail_tuple. cbn [forward_loop]. munfold. unfold unpack.
  cbn [length]. rewrite bool_decide_eq_true_2 by done. cbv beta iota.
  rewrite Hrun. unfold log, outcome_row. cbn [db ticks trace].
  rewrite save_run. cbn [db ticks trace].
  rewrite <- !app_assoc. simpl. by destruct ok.
Qed.

Lemma forward_arity self arity smtp n u data rest fc ff w :
  arity ≠ 4%nat →
  forward_loop self arity smtp n (mail_tuple u data :: rest) fc ff w =
  (inl ValueError, w).
Proof.
  intros Hne. unfold mail_tuple. cbn [forward_loop]. munfold. unfold unpack.
  cbn [length]. rewrite bool_decide_eq_false_2; [done|].
  intros Heq. apply Hne. by rewrite <- Heq.
Qed.

Lemma cons_eq_app_cons {A} (x y : A) l pre post :
  x :: l = pre ++ y :: post →
  (pre = [] ∧ x = y ∧ l = post) ∨ (∃ pre', pre = x :: pre' ∧ l = pre' ++ y :: post).
Proof.
  destruct pre as [|z pre]; simpl; intros [= -> ->]; [by left|].
  right. by exists pre.
Qed.

Lemma app_eq_app_cons {A} (y : A) l1 l2 pre post :
  l1 ++ l2 = pre ++ y :: post →
  (∃ post1, l1 = pre ++ y :: post1 ∧ post = post1 ++ l2) ∨
  (∃ pre2, pre = l1 ++ pre2 ∧ l2 = pre2 ++ y :: post).
Proof.
  revert pre. induction l1 as [|x l1 IH]; intros pre Heq.
  - right. by exists pre.
  - simpl in Heq. apply cons_eq_app_cons in Heq
      as [(-> & -> & <-)|(pre' & -> & Heq)].
    + left. by exists l1.
    + apply IH in Heq as [(post1 & H1 & H2)|(pre2 & H1 & H2)]; subst.
      * left. by exists post1.
      * right. by exists pre2.
Qed.

Lemma noise_not_forward e u ok : session_noise e → e ≠ EvForward u ok.
Proof. intros [-> | [-> | [-> | ->]]]; done. Qed.

Lemma relay_event_mono l x e : relay_event l e → relay_event (x :: l) e.
Proof.
  intros [Hn|(u & data & ok & Hin & He)]; [by left|].
  right. exists u, data, ok. split; [by right|done].
Qed.

Lemma recorded_at_once_block l u data ok noise tr :
  Forall session_noise noise →
  recorded_at_once l tr →
  recorded_at_once ((u, data) :: l)
    (noise ++ [EvForward u ok; EvSave u (sender_of data) (subject_of data) ok]
     ++ tr).
Proof.
  intros Hn Hrec pre post u0 ok0 Heq.
  apply app_eq_app_cons in Heq as [(post1 & Hnoise & _)|(pre2 & -> & Heq)].
  { exfalso. rewrite Forall_forall in Hn.
    eapply noise_not_forward; [|done]. apply Hn. rewrite Hnoise.
    apply elem_of_app. right. by left. }
  simpl in Heq. apply cons_eq_app_cons in Heq
    as [(-> & Hf & <-)|(pre' & -> & Heq)].
  { simplify_eq. exists data, tr. split; [by left|done]. }
  apply cons_eq_app_cons in Heq as [(_ & ? & _)|(pre'' & -> & Heq)]; [done|].
  destruct (Hrec _ _ _ _ Heq) as (data' & post' & Hin & ->).
  exists data', post'. split; [by right|done].
Qed.

Lemma forward_loop_4 self smtp l : ∀ n fc ff w,
  NoDup l.*1 →
  ∃ fc' ff' w' tr,
    forward_loop self 4 smtp n (tuples l) fc ff w = (inr (fc', ff'), w') ∧
    trace w' = trace w ++ tr ∧
    Forall (relay_event l) tr ∧
    recorded_at_once l tr ∧
    (∀ k, k ∉ l.*1 → db w' !! k = db w !! k) ∧
    (∀ u data, (u, data) ∈ l →
       ∃ ok t, EvForward u ok ∈ tr ∧
               db w' !! u = Some (outcome_row t data ok)) ∧
    (∀ u ok, EvForward u ok ∈ tr →
       ∃ data t, (u, data) ∈ l ∧ db w' !! u = Some (outcome_row t data ok)) ∧
    (fc' + ff' = fc + ff + length l)%nat.
Proof.
  induction l as [|[u data] l IH]; intros n fc ff w Hnd.
  - exists fc, ff, w, []. split; [done|]. rewrite app_nil_r.
    split; [done|]. split; [constructor|].
    split; [intros pre post ?? Heq; by destruct pre|].
    split; [done|].
    split; [intros ?? Hin; by apply elem_of_nil in Hin|].
    split; [intros ?? Hin; by apply elem_of_nil in Hin|].
    simpl. lia.
  - apply NoDup_cons in Hnd as [Hu Hnd]. simpl in Hu.
    destruct (forward_step self smtp n u data (tuples l) fc ff w)
      as (ok & noise & Hn & Hstep).
    change (tuples ((u, data) :: l)) with (mail_tuple u data :: tuples l).
    rewrite Hstep.
    set (w1 := {| db := <[u:=outcome_row (clk (ticks w)) data ok]> (db w);
                  ticks := S (ticks w);
                  trace := trace w ++ noise ++
                           [EvForward u ok;
                            EvSave u (sender_of data) (subject_of data) ok] |}).
    destruct (IH (S n) (if ok then S fc else fc) (if ok then ff else S ff)
                 w1 Hnd)
      as (fc' & ff' & w' & tr & Hrun & Htr & Hev & Hrec & Hframe & Hall & Hfw & Hcnt).
    exists fc', ff', w',
      (noise ++ [EvForward u ok;
                 EvSave u (sender_of data) (subject_of data) ok] ++ tr).
    split; [done|].
    split; [rewrite Htr; unfold w1; simpl; by rewrite <- !app_assoc|].
    assert (Hwu : db w' !! u = Some (outcome_row (clk (ticks w)) data ok)).
    { rewrite Hframe by done. unfold w1. simpl. by rewrite lookup_insert_eq. }
    split.
    { apply Forall_app. split.
      - eapply Forall_impl; [exact Hn|]. intros e He. by left.
      - constructor.
        { right. exists u, data, ok. split; [by left|by left]. }
        constructor.
        { right. exists u, data, ok. split; [by left|by right]. }
        eapply Forall_impl; [exact Hev|]. intros e. apply relay_event_mono. }
    split; [by apply recorded_at_once_block|].
    split.
    { intros k Hk. rewrite Hframe.
      - unfold w1. simpl. rewrite lookup_insert_ne; [done|].
        intros ->. apply Hk. by left.
      - intros Hin. apply Hk. by right. }
    split.
    { intros u' data' Hin. apply elem_of_cons in Hin as [Heq|Hin].
      - simplify_eq. exists ok, (clk (ticks w)). split; [|done].
        apply elem_of_app. right. by left.
      - destruct (Hall _ _ Hin) as (ok' & t & Hin' & Hdb).
        exists ok', t. split; [|done].
        apply elem_of_app. right. right. by right. }
    split.
    { intros u' ok' Hin. apply elem_of_app in Hin as [Hin|Hin].
      { exfalso. rewrite Forall_forall in Hn.
        by eapply noise_not_forward; [apply Hn|]. }
      apply elem_of_cons in Hin as [Heq|Hin].
      { simplify_eq. exists data, (clk (ticks w)). split; [by left|done]. }
      apply elem_of_cons in Hin as [Heq|Hin]; [done|].
      destruct (Hfw _ _ Hin) as (data' & t & Hin' & Hdb).
      exists data', t. split; [by right|done]. }
    simpl. destruct ok; lia.
Qed.

Lemma forward_loop_run self arity smtp l n fc ff w :
  NoDup l.*1 →
  ∃ r w' tr,
    forward_loop self arity smtp n (tuples l) fc ff w = (r, w') ∧
    trace w' = trace w ++ tr ∧
    Forall (relay_event l) tr ∧
    recorded_at_once l tr ∧
    (∀ k, k ∉ l.*1 → db w' !! k = db w !! k) ∧
    (∀ u ok, EvForward u ok ∈ tr →
       ∃ data t, (u, data) ∈ l ∧ db w' !! u = Some (outcome_row t data ok)) ∧
    (∀ k, is_Some (db w !! k) → is_Some (db w' !! k)) ∧
    (∀ c, r = inr c →
       ∀ u data, (u, data) ∈ l →
         ∃ ok t, EvForward u ok ∈ tr ∧
                 db w' !! u = Some (outcome_row t data ok)) ∧
    (arity = 4%nat → ∃ c, r = inr c) ∧
    (arity ≠ 4%nat → l ≠ [] → r = inl ValueError ∧ w' = w).
Proof.
  intros Hnd. destruct (decide (arity = 4%nat)) as [->|Hne].
  - destruct (forward_loop_4 self smtp l n fc ff w Hnd)
      as (fc' & ff' & w' & tr & Hrun & Htr & Hev & Hrec & Hframe & Hall & Hfw & _).
    exists (inr (fc', ff')), w', tr. repeat (split; [done|]).
    split.
    { intros k Hk. destruct (decide (k ∈ l.*1)) as [Hin|Hin].
      - apply list_elem_of_fmap in Hin as [[u data] [-> Hin]].
        destruct (Hall _ _ Hin) as (ok & t & _ & Hdb). by eexists.
      - by rewrite Hframe. }
    split; [intros c _; exact Hall|].
    split; [intros _; by eexists|done].
  - destruct l as [|[u data] l].
    + exists (inr (fc, ff)), w, []. split; [done|]. rewrite app_nil_r.
      split; [done|]. split; [constructor|].
      split; [intros pre post ?? Heq; by destruct pre|].
      split; [done|].
      split; [intros ?? Hin; by apply elem_of_nil in Hin|].
      split; [done|].
      split; [intros ? _ ?? Hin; by apply elem_of_nil in Hin|done].
    + exists (inl ValueError), w, [].
      change (tuples ((u, data) :: l)) with (mail_tuple u data :: tuples l).
      rewrite forward_arity by done. split; [done|]. rewrite app_nil_r.
      split; [done|]. split; [constructor|].
      split; [intros pre post ?? Heq; by destruct pre|].
      split; [done|].
      split; [intros ?? Hin; by apply elem_of_nil in Hin|].
      split; [done|]. split; [done|]. done.
Qed.

(** ** Retention sweeper: the claims *)


(** C9: when the sweeper's mailbox session fails to connect, to
    authenticate or to list the identifiers, the sweep returns with the
    ledger exactly as it was; a ledger that changed tells of a session
    that connected, authenticated and listed. *)
Theorem C9_failed_session_removes_nothing self srv w :
  ∃ w',
    _delete_old_mails self srv w = (inr tt, w') ∧
    (pop_connect srv = false ∨ pop_user srv = false ∨ pop_pass srv = false ∨
     listing srv = None → db w' = db w) ∧
    (db w' ≠ db w →
     pop_connect srv = true ∧ pop_user srv = true ∧ pop_pass srv = true ∧
     is_Some (listing srv)).
Proof.
  destruct (decide (default 30 (mail_retention_days (cfg self)) = 0))
    as [H0|Hdays].
  { exists w. rewrite sweep_off by done. by split. }
  destruct (sweep_run self srv w Hdays) as (d' & tr & Hrun & _ & Hd & _).
  eexists. split; [exact Hrun|]. simpl.
  assert (Hok : session_lists srv = true →
            pop_connect srv = true ∧ pop_user srv = true ∧
            pop_pass srv = true ∧ is_Some (listing srv)).
  { unfold session_lists. intros Hs.
    apply andb_true_iff in Hs as [Hs Hl].
    apply andb_true_iff in Hs as [Hs ?].
    apply andb_true_iff in Hs as [? ?].
    by apply bool_decide_eq_true_1 in Hl. }
  split.
  - intros Hfail. destruct Hd as [?|[_ Hs]]; [done|].
    destruct (Hok Hs) as (? & ? & ? & [s Hl]).
    destruct Hfail as [?|[?|[?|?]]]; congruence.
  - intros Hne. destruct Hd as [?|[_ Hs]]; [done|]. by apply Hok.
Qed.


(** ** Reconciliation: the claims *)

Lemma reconcile_unfold self arity srv smtp w l w1 :
  _fetch_new_mails self srv w = (inr (tuples l), w1) →
  reconcile self arity srv smtp w =
  (match (forward_loop self arity smtp 0 (tuples l) 0 0 w1).1 with
   | inl e => inl e
   | inr c => inr (length (tuples l), c)
   end, (forward_loop self arity smtp 0 (tuples l) 0 0 w1).2).
Proof.
  intros Hf. unfold reconcile. munfold. rewrite Hf.
  destruct (forward_loop self arity smtp 0 (tuples l) 0 0 w1) as [[e|c] w'];
    done.
Qed.

Lemma relay_event_not_retr l e u n : relay_event l e → e ≠ EvRetr u n.
Proof.
  intros [[-> | [-> | [-> | ->]]]|(u' & data & ok & _ & [->| ->])]; done.
Qed.

Lemma poll_event_not_forward self srv d e u ok :
  poll_event self srv d e → e ≠ EvForward u ok.
Proof.
  intros [->|[->|[->|[(? & ? & ->)|[(? & ? & ? & _ & -> & _)|
          (? & ? & ? & ? & _ & -> & _)]]]]]; done.
Qed.


Lemma verdict_of_message self srv (s : gmap string Z) u n lines :
  s !! u = Some n → pop_retr srv n = Some lines →
  verdict self srv s u =
  match start_date self, mail_date_of (join_crlf lines) with
  | Some cutoff, Some mail_date =>
      match dt_lt mail_date cutoff with
      | inl e => inl e
      | inr earlier => inr (n, join_crlf lines, earlier)
      end
  | _, _ => inr (n, join_crlf lines, false)
  end.
Proof. intros Hs Hr. unfold verdict. by rewrite Hs, Hr. Qed.

(** A new message in a poll, and then in the relay loop of a daemon turn. *)
Lemma poll_then_relay self srv w (s : gmap string Z) u n data (b : bool) :
  listing srv = Some s → db w !! u = None →
  verdict self srv s u = inr (n, data, b) →
  ∃ l w1 tr1,
    _fetch_new_mails self srv w = (inr (tuples l), w1) ∧
    trace w1 = trace w ++ tr1 ∧
    (EvFetchError ∉ tr1 →
     if b
     then (u ∉ l.*1) ∧ ∃ t, db w1 !! u = Some (outcome_row t data false)
     else (u, data) ∈ l ∧ db w1 !! u = None) ∧
    ∀ smtp, ∃ c w' tr2,
      forward_loop self 4 smtp 0 (tuples l) 0 0 w1 = (inr c, w') ∧
      trace w' = trace w1 ++ tr2 ∧
      (EvFetchError ∉ tr1 →
       if b
       then (∀ ok, EvForward u ok ∉ tr2) ∧
            ∃ t, db w' !! u = Some (outcome_row t data false)
       else ∃ ok t, EvForward u ok ∈ tr2 ∧
                    db w' !! u = Some (outcome_row t data ok)).
Proof.
  intros Hs Hnone Hv.
  destruct (fetch_run self srv w)
    as (l & w1 & tr1 & Hf & Htr1 & Hev1 & Hnd & Hl & Hdb & Hall).
  exists l, w1, tr1. split; [done|]. split; [done|].
  assert (Hnotin : b = true → u ∉ (l.*1)).
  { intros -> Hin. apply list_elem_of_fmap in Hin as [[u' data'] [-> Hin]].
    destruct (Hl _ _ Hin) as (_ & _ & s' & n' & Hs' & Hv').
    simplify_eq. simpl in Hv. rewrite Hv in Hv'. done. }
  assert (Hpoll : EvFetchError ∉ tr1 →
            if b
            then (u ∉ l.*1) ∧ ∃ t, db w1 !! u = Some (outcome_row t data false)
            else (u, data) ∈ l ∧ db w1 !! u = None).
  { intros Hno. destruct (Hall Hno) as (_ & _ & s' & Hs' & Hall').
    simplify_eq.
    destruct (Hall' u) as (n' & data' & b' & Hv' & _ & Hb');
      [apply verdict_lookup in Hv; by eexists|done|].
    rewrite Hv in Hv'. simplify_eq. destruct b'.
    - split; [by apply Hnotin|done].
    - split; [done|]. by destruct (Hl _ _ Hb') as (_ & ? & _). }
  split; [done|].
  intros smtp.
  destruct (forward_loop_run self 4 smtp l 0 0 0 w1 Hnd)
    as (r2 & w' & tr2 & Hrun & Htr2 & Hev2 & _ & Hframe & Hfw & _ & Hdone & Hret & _).
  destruct Hret as [c ->]; [done|].
  exists c, w', tr2. split; [done|]. split; [done|].
  intros Hno. specialize (Hpoll Hno). destruct b.
  - destruct Hpoll as [Hu [t Ht]]. split.
    + intros ok Hin. destruct (Hfw _ _ Hin) as (data' & _ & Hin' & _).
      apply Hu. apply list_elem_of_fmap. by exists (u, data').
    + exists t. by rewrite Hframe.
  - destruct Hpoll as [Hin _]. by apply (Hdone c).
Qed.



(** ** A failed relay is final *)

Lemma failures_final_quiet w w' tr :
  failures_final w →
  trace w' = trace w ++ tr →
  (∀ u ok, EvForward u ok ∉ tr) →
  (∀ u r, db w !! u = Some r → forward_success r = false →
          ∃ r', db w' !! u = Some r' ∧ forward_success r' = false) →
  failures_final w'.
Proof.
  intros Hinv Htr Hno Hdb pre post u Heq. rewrite Htr in Heq.
  apply app_eq_app_cons in Heq as [(post1 & Hw & ->)|(pre2 & -> & Htr2)].
  - destruct (Hinv _ _ _ Hw) as ((f & s & post' & ->) & Hnf & (r & Hr & Hs)).
    split; [by exists f, s, (post' ++ tr)|].
    split; [|by eapply Hdb].
    intros ok Hin. apply elem_of_app in Hin as [Hin|Hin].
    + by eapply Hnf.
    + by eapply Hno.
  - exfalso. eapply Hno. rewrite Htr2. apply elem_of_app. right. by left.
Qed.

Lemma failures_final_block w w' u f s ok r :
  failures_final w →
  db w !! u = None →
  trace w' = trace w ++ [EvForward u ok; EvSave u f s ok] →
  db w' = <[u := r]> (db w) →
  forward_success r = ok →
  failures_final w'.
Proof.
  intros Hinv Hnone Htr Hdb Hok pre post u0 Heq. rewrite Htr in Heq.
  apply app_eq_app_cons in Heq as [(post1 & Hw & ->)|(pre2 & -> & Hb)].
  - destruct (Hinv _ _ _ Hw) as ((f0 & s0 & post' & ->) & Hnf & (r0 & Hr0 & Hs0)).
    assert (Hne : u ≠ u0) by (intros ->; congruence).
    split; [by eexists f0, s0, _|].
    split.
    + intros ok' Hin. apply elem_of_app in Hin as [Hin|Hin].
      * by eapply Hnf.
      * apply elem_of_cons in Hin as [Heq|Hin]; [by simplify_eq|].
        apply elem_of_cons in Hin as [Heq|Hin]; [done|].
        by apply elem_of_nil in Hin.
    + exists r0. rewrite Hdb, lookup_insert_ne by done. done.
  - apply cons_eq_app_cons in Hb as [(-> & Hf & <-)|(pre' & -> & Hb)].
    + injection Hf as <- Hfalse. destruct ok; [done|].
      split; [by eexists _, _, _|].
      split.
      * intros ok' Hin. apply elem_of_cons in Hin as [Heq|Hin]; [done|].
        by apply elem_of_nil in Hin.
      * exists r. rewrite Hdb, lookup_insert_eq. done.
    + destruct pre' as [|? [|? ?]]; simplify_eq.
Qed.

Lemma forward_loop_final self arity smtp l : ∀ n fc ff w,
  NoDup l.*1 → (∀ u, u ∈ l.*1 → db w !! u = None) →
  failures_final w →
  failures_final (forward_loop self arity smtp n (tuples l) fc ff w).2.
Proof.
  destruct (decide (arity = 4%nat)) as [->|Hne].
  2: { intros n fc ff w _ _ Hinv. destruct l as [|[u data] l]; [done|].
       change (tuples ((u, data) :: l)) with (mail_tuple u data :: tuples l).
       by rewrite forward_arity. }
  induction l as [|[u data] l IH]; intros n fc ff w Hnd Hnew Hinv; [done|].
  apply NoDup_cons in Hnd as [Hu Hnd]. simpl in Hu.
  destruct (forward_step self smtp n u data (tuples l) fc ff w)
    as (ok & noise & Hn & Hstep).
  change (tuples ((u, data) :: l)) with (mail_tuple u data :: tuples l).
  rewrite Hstep. apply IH; [done| |].
  - intros u' Hin. simpl. rewrite lookup_insert_ne.
    + apply Hnew. by right.
    + intros ->. done.
  - eapply (failures_final_block
              {| db := db w; ticks := ticks w; trace := trace w ++ noise |}
              _ u _ _ ok).
    + eapply (failures_final_quiet w); [done|done| |by eauto].
      intros u' ok' Hin. rewrite Forall_forall in Hn.
      by eapply noise_not_forward; [apply Hn|].
    + simpl. apply Hnew. by left.
    + simpl. by rewrite <- app_assoc.
    + done.
    + done.
Qed.

Lemma log_final e w :
  (∀ u ok, e ≠ EvForward u ok) → failures_final w → failures_final (log e w).
Proof.
  intros Hne Hinv. eapply (failures_final_quiet w _ [e]); [done|done| |by eauto].
  intros u ok Hin. apply elem_of_cons in Hin as [Heq|Hin].
  - by eapply Hne.
  - by apply elem_of_nil in Hin.
Qed.

Lemma sweep_returns self srv w :
  ∃ w', _delete_old_mails self srv w = (inr tt, w').
Proof.
  destruct (decide (default 30 (mail_retention_days (cfg self)) = 0)) as [H0|H0].
  - exists w. by apply sweep_off.
  - destruct (sweep_run self srv w H0) as (d' & tr & Hrun & _). by eexists.
Qed.

Lemma sweep_final self srv w :
  failures_final w → failures_final (_delete_old_mails self srv w).2.
Proof.
  intros Hinv.
  destruct (decide (default 30 (mail_retention_days (cfg self)) = 0)) as [H0|H0].
  { by rewrite sweep_off. }
  destruct (sweep_run self srv w H0) as (d' & tr & Hrun & Hev & Hd & _).
  rewrite Hrun. simpl.
  eapply (failures_final_quiet w _ tr); [done|done| |].
  - intros u ok Hin. rewrite Forall_forall in Hev.
    destruct (Hev _ Hin) as [?|[?|[?|[[? ?]|(? & ? & ? & ? & ? & _)]]]]; done.
  - intros u r Hu Hs. simpl. exists r. split; [|done].
    destruct Hd as [->|[-> _]]; [done|].
    rewrite swept_lookup, Hu. rewrite decide_False; [done|].
    intros [? _]. congruence.
Qed.

Lemma reconcile_final self arity srv smtp w :
  failures_final w → failures_final (reconcile self arity srv smtp w).2.
Proof.
  intros Hinv.
  destruct (fetch_run self srv w)
    as (l & w1 & tr1 & Hf & Htr1 & Hev1 & Hnd & Hl & Hdb & _).
  rewrite (reconcile_unfold _ _ _ _ _ _ _ Hf). simpl.
  apply forward_loop_final; [done| |].
  - intros u Hin. apply list_elem_of_fmap in Hin as [[u' data] [-> Hin]].
    by destruct (Hl _ _ Hin) as (_ & ? & _).
  - eapply (failures_final_quiet w _ tr1); [done|done| |].
    + intros u ok Hin. rewrite Forall_forall in Hev1.
      by eapply poll_event_not_forward; [apply Hev1|].
    + intros u r Hu Hs. exists r. split; [|done].
      destruct (Hdb u) as [->|(? & ? & ? & ? & _ & ? & _)]; [done|congruence].
Qed.

Lemma process_once_final self c w :
  failures_final w → failures_final (process_once self c w).2.
Proof.
  intros Hinv. unfold process_once. munfold.
  destruct (sweep_returns self (sweep_session c) w) as [w1 Hs].
  pose proof (sweep_final self (sweep_session c) w Hinv) as H1.
  rewrite Hs in *. simpl in H1.
  pose proof (reconcile_final self 5 (fetch_session c) (smtp_sessions c) w1 H1)
    as H2.
  destruct (reconcile self 5 (fetch_session c) (smtp_sessions c) w1)
    as [[e|r] w2]; simpl in *; [done|].
  by apply log_final.
Qed.

Lemma daemon_cycle_final self c w :
  failures_final w → failures_final (daemon_cycle self c w).2.
Proof.
  intros Hinv. unfold daemon_cycle. munfold.
  destruct (sweep_returns self (sweep_session c) w) as [w1 Hs].
  pose proof (sweep_final self (sweep_session c) w Hinv) as H1.
  rewrite Hs in *. simpl in H1.
  pose proof (reconcile_final self 4 (fetch_session c) (smtp_sessions c) w1 H1)
    as H2.
  destruct (reconcile self 4 (fetch_session c) (smtp_sessions c) w1)
    as [[e|r] w2]; simpl in *; by apply log_final.
Qed.

Lemma process_daemon_final self cycles : ∀ w,
  failures_final w → failures_final (process_daemon self cycles w).2.
Proof.
  induction cycles as [|c cycles IH]; intros w Hinv; [done|].
  cbn [process_daemon]. munfold.
  pose proof (daemon_cycle_final self c w Hinv) as H1.
  destruct (daemon_cycle self c w) as [[e|[]] w1]; simpl in *; [done|].
  by apply IH.
Qed.


(** ** Idempotence and crash safety *)

(** After a reconciliation that returned and whose poll ended without
    error, every UIDL the server listed has a ledger row. *)
Lemma reconcile_covers self arity srv smtp w c w1 tr1 :
  reconcile self arity srv smtp w = (inr c, w1) →
  trace w1 = trace w ++ tr1 →
  EvFetchError ∉ tr1 →
  ∃ s, listing srv = Some s ∧ ∀ u, is_Some (s !! u) → is_Some (db w1 !! u).
Proof.
  intros Hrec Htr Hno.
  destruct (fetch_run self srv w)
    as (l & wa & tra & Hf & Htra & Heva & Hnd & Hl & Hdb & Hall).
  destruct (forward_loop_run self arity smtp l 0 0 0 wa Hnd)
    as (r2 & wb & trb & Hrun & Htrb & _ & _ & _ & _ & Hmono & Hdone & _).
  rewrite (reconcile_unfold _ _ _ _ _ _ _ Hf), Hrun in Hrec. simpl in Hrec.
  destruct r2 as [e|c2]; [done|]. injection Hrec as _ <-.
  assert (Htr1 : tr1 = tra ++ trb).
  { rewrite Htrb, Htra, <- app_assoc in Htr. by apply app_inv_head in Htr. }
  subst tr1.
  destruct Hall as (_ & _ & s & Hs & Hall).
  { intros Hin. apply Hno. apply elem_of_app. by left. }
  exists s. split; [done|]. intros u Hu.
  destruct (db w !! u) as [r|] eqn:Hw.
  - apply Hmono. destruct (Hdb u) as [->|(? & ? & ? & ? & _ & ? & _)];
      [by eexists|congruence].
  - destruct (Hall u Hu Hw) as (n & data & b & _ & _ & Hb). destruct b.
    + apply Hmono. destruct Hb as [t ->]. by eexists.
    + destruct (Hdone c2 eq_refl _ _ Hb) as (ok & t & _ & ->). by eexists.
Qed.


Lemma forward_step_eq self smtp n u data rest fc ff w :
  forward_loop self 4 smtp n (mail_tuple u data :: rest) fc ff w =
  match _forward_mail self (smtp n) data (sender_of data) (subject_of data) w
  with
  | (inr ok, wf) =>
      forward_loop self 4 smtp (S n) rest
        (if ok : bool then S fc else fc) (if ok : bool then ff else S ff)
        (_save_retrieved_mail u (sender_of data) (subject_of data) ok
                              (log (EvForward u ok) wf)).2
  | (inl e, wf) => (inl e, wf)
  end.
Proof.
  unfold mail_tuple. cbn [forward_loop]. munfold. unfold unpack.
  cbn [length]. rewrite bool_decide_eq_true_2 by done. cbv beta iota.
  destruct (_forward_mail self (smtp n) data (sender_of data)
                          (subject_of data) w) as [[e|ok] wf]; [done|].
  rewrite save_run. cbn [snd]. by destruct ok.
Qed.

Lemma forward_loop_app self smtp l1 l2 : ∀ n fc ff w,
  forward_loop self 4 smtp n (tuples (l1 ++ l2)) fc ff w =
  match forward_loop self 4 smtp n (tuples l1) fc ff w with
  | (inr c, w') =>
      forward_loop self 4 smtp (n + length l1) (tuples l2) c.1 c.2 w'
  | (inl e, w') => (inl e, w')
  end.
Proof.
  induction l1 as [|[u data] l1 IH]; intros n fc ff w.
  - simpl. by rewrite Nat.add_0_r.
  - change (tuples (((u, data) :: l1) ++ l2))
      with (mail_tuple u data :: tuples (l1 ++ l2)).
    change (tuples ((u, data) :: l1)) with (mail_tuple u data :: tuples l1).
    rewrite !forward_step_eq.
    destruct (_forward_mail self (smtp n) data (sender_of data)
                            (subject_of data) w) as [[e|ok] wf]; [done|].
    rewrite IH. cbn [length]. by rewrite Nat.add_succ_r.
Qed.

Lemma verdict_same_message self srv (s : gmap string Z) u n data b
    srv2 (s2 : gmap string Z) u2 n2 lines2 :
  verdict self srv s u = inr (n, data, b) →
  s2 !! u2 = Some n2 → pop_retr srv2 n2 = Some lines2 →
  join_crlf lines2 = data →
  verdict self srv2 s2 u2 = inr (n2, data, b).
Proof.
  intros Hv Hs2 Hr2 <-. rewrite (verdict_of_message _ _ _ _ _ _ Hs2 Hr2).
  unfold verdict in Hv. destruct (s !! u) as [m|]; [|done].
  destruct (pop_retr srv m) as [lines|]; [|done]. cbv zeta in Hv.
  destruct (start_date self) as [c|].
  - destruct (mail_date_of (join_crlf lines)) as [d|] eqn:Hd.
    + destruct (dt_lt d c) as [e|b'] eqn:Hlt; [done|].
      injection Hv as _ Hdata ->. rewrite Hdata in Hd. by rewrite Hd, Hlt.
    + injection Hv as _ Hdata <-. rewrite Hdata in Hd. by rewrite Hd.
  - by injection Hv as _ _ <-.
Qed.


(** ** The one-shot entry point *)

(** C8, where the code departs from the claim: the server lists
    "u1" and "u2", the ledger is empty, no cutoff is configured and the
    relay accepts every message.  [process_once] polls both messages and
    then raises [ValueError] at the head of its relay loop, which unpacks
    five names from the four-element tuples of [_fetch_new_mails]: nothing
    is relayed, the ledger stays empty and no summary is reported.  A
    daemon turn on the same input, whose loop unpacks four names, relays
    both, leaves exactly two rows with [forward_success] set and reports
    two messages. *)
Theorem C8_one_shot_raises_before_relay :
  let c := demo_env two_items true in
  let once := process_once plain_self c demo_w0 in
  let turn := daemon_cycle plain_self c demo_w0 in
  once.1 = inl ValueError ∧
  db once.2 = ∅ ∧
  trace once.2 = [EvPopConnect; EvRetr "u1" 1; EvRetr "u2" 2;
                  EvFetchSummary 2 2; EvPopQuit] ∧
  turn.1 = inr tt ∧
  db turn.2 !! "u1" = Some (outcome_row (clk 1) demo_old true) ∧
  db turn.2 !! "u2" = Some (outcome_row (clk 2) demo_new true) ∧
  size (db turn.2) = 2%nat ∧
  trace turn.2 = [EvPopConnect; EvRetr "u1" 1; EvRetr "u2" 2;
                  EvFetchSummary 2 2; EvPopQuit;
                  EvForward "u1" true;
                  EvSave "u1" (sender_of demo_old) (subject_of demo_old) true;
                  EvForward "u2" true;
                  EvSave "u2" (sender_of demo_new) (subject_of demo_new) true;
                  EvCycleSummary 2].
Proof. vm_compute. repeat split; reflexivity. Qed.

(** ** Further properties of the methods *)

(** *** The relay: [_forward_mail] and the loop around it *)

Ltac in_list := repeat first [by left | right].
Ltac not_in_list H :=
  repeat (apply elem_of_cons in H as [H|H]; [discriminate H|]);
  by apply elem_of_nil in H.
Ltac decide_in_list :=
  split; [intros ?Hin; first [reflexivity | not_in_list Hin]
         |intros ?Heq; first [discriminate Heq | in_list]].

Lemma forward_mail_accepts self smtp data from subj w :
  ∃ tr,
    _forward_mail self smtp data from subj w =
      (inr (relay_accepts self smtp data), add_trace tr w) ∧
    Forall session_noise tr ∧
    (EvForwardError ∈ tr ↔ relay_accepts self smtp data = false).
Proof.
  unfold _forward_mail, _authenticate_pop_before_smtp, pop3_quit, pop3_login,
    relay_accepts.
  munfold. unfold session_noise, log, add_trace. destruct w as [d k tr0]. simpl.
  split_ifs; rewrite <- ?app_assoc; simpl;
    (eexists; split; [reflexivity|]; split;
       [repeat (apply List.Forall_cons; [simpl; auto 6|]); apply List.Forall_nil
       |decide_in_list]) ||
    (exists []; rewrite app_nil_r; split; [reflexivity|]; split;
       [constructor|decide_in_list]).
Qed.

(** X1: [_forward_mail] never raises, whatever the POP3 or SMTP session does,
    and it leaves ledger and clock alone.  It returns [True] exactly when
    every step goes through: the POP-before-SMTP session where that is
    configured, connect, STARTTLS (skipped on port 465 and where [use_tls]
    is off), login, sendmail and quit; it logs the relay error exactly
    when it returns [False].  Sender and subject play no part. *)
Theorem forward_mail_outcome self smtp data from subj w :
  ∃ tr,
    _forward_mail self smtp data from subj w =
      (inr (relay_accepts self smtp data),
       {| db := db w; ticks := ticks w; trace := trace w ++ tr |}) ∧
    Forall session_noise tr ∧
    (EvForwardError ∈ tr ↔ relay_accepts self smtp data = false) ∧
    (smtp_port (cfg self) = 465 ∨ smtp_use_tls (cfg self) = Some false →
     ∀ tls, relay_accepts self smtp data =
            relay_accepts self
              {| smtp_connect := smtp_connect smtp; smtp_starttls := tls;
                 smtp_login := smtp_login smtp;
                 smtp_sendmail := smtp_sendmail smtp;
                 smtp_quit := smtp_quit smtp;
                 pbs_session := pbs_session smtp |} data).
Proof.
  destruct (forward_mail_accepts self smtp data from subj w)
    as (tr & Hrun & Hn & Herr).
  exists tr. repeat (split; [done|]).
  intros Hoff tls. unfold relay_accepts. cbn [smtp_connect smtp_starttls
    smtp_login smtp_sendmail smtp_quit pbs_session].
  destruct Hoff as [Hp|Ht].
  - by rewrite (bool_decide_eq_true_2 _ Hp).
  - rewrite Ht. simpl. by rewrite !orb_true_r.
Qed.

Lemma forward_step_accepts self smtp n u data rest fc ff w :
  let ok := relay_accepts self (smtp n) data in
  ∃ noise,
    Forall session_noise noise ∧
    forward_loop self 4 smtp n (mail_tuple u data :: rest) fc ff w =
    forward_loop self 4 smtp (S n) rest
      (if ok then S fc else fc) (if ok then ff else S ff)
      {| db := <[u := outcome_row (clk (ticks w)) data ok]> (db w);
         ticks := S (ticks w);
         trace := trace w ++ noise ++
                  [EvForward u ok;
                   EvSave u (sender_of data) (subject_of data) ok] |}.
Proof.
  intros ok.
  destruct (forward_mail_accepts self (smtp n) data (sender_of data)
                                 (subject_of data) w) as (noise & Hrun & Hn & _).
  exists noise. split; [done|].
  rewrite forward_step_eq, Hrun. fold ok. rewrite save_run.
  unfold log, add_trace, outcome_row. cbn [db ticks trace snd].
  rewrite <- !app_assoc. simpl. by destruct ok.
Qed.

Lemma filter_forward_noise noise :
  Forall session_noise noise → filter is_forward noise = [].
Proof.
  induction 1 as [|e noise He _ IH]; [done|].
  rewrite filter_cons, IH.
  by destruct He as [-> | [-> | [-> | ->]]].
Qed.


(** *** The ledger: [_save_retrieved_mail] and [_get_retrieved_uidls] *)

(** X3: [_save_retrieved_mail] followed by [_get_retrieved_uidls] gives the
    earlier set of UIDLs with the saved one added.  The row of the saved
    UIDL holds the clock reading, sender, subject and flag of the call,
    every other row is as before, the table grows by one row only when the
    UIDL was not recorded yet, and a second save for the same UIDL leaves
    nothing of the first in the ledger. *)
Theorem save_then_lookup uidl from subj success w :
  let run := _save_retrieved_mail uidl from subj success w in
  run.1 = inr tt ∧
  db run.2 !! uidl =
    Some {| forwarded_at := clk (ticks w); from_addr := from;
            subject := subj; forward_success := success |} ∧
  (∀ k, k ≠ uidl → db run.2 !! k = db w !! k) ∧
  (_get_retrieved_uidls run.2).1 = inr ({[uidl]} ∪ dom (db w)) ∧
  size (db run.2) =
    (if decide (is_Some (db w !! uidl)) then size (db w)
     else S (size (db w))) ∧
  ∀ from2 subj2 success2,
    db (_save_retrieved_mail uidl from2 subj2 success2 run.2).2 =
    <[uidl := {| forwarded_at := clk (S (ticks w)); from_addr := from2;
                 subject := subj2; forward_success := success2 |}]> (db w).
Proof.
  intros run. subst run. rewrite save_run. cbn [fst snd db ticks].
  split; [done|]. split; [by rewrite lookup_insert_eq|].
  split; [by intros k Hk; rewrite lookup_insert_ne|].
  split; [unfold _get_retrieved_uidls; simpl; by rewrite dom_insert_L|].
  split.
  - rewrite map_size_insert. case_decide as Hs.
    + by destruct Hs as [r ->].
    + apply eq_None_not_Some in Hs. by rewrite Hs.
  - intros from2 subj2 success2. rewrite save_run. cbn [snd db ticks].
    by rewrite insert_insert_eq.
Qed.

(** *** The listing: [server_uidls] *)

Lemma build_server_uidls_lines (l : list (Z * string)) : ∀ acc,
  build_server_uidls (Some <$> l) acc =
  inr (foldl (λ (m : gmap string Z) p, <[p.2 := p.1]> m) acc l).
Proof.
  induction l as [|[n u] l IH]; intros acc; [done|]. simpl. by rewrite IH.
Qed.

Lemma build_server_uidls_malformed items : ∀ acc,
  match build_server_uidls items acc with
  | inl e => e = ValueError ∧ None ∈ items
  | inr _ => ∃ l, items = Some <$> l
  end.
Proof.
  induction items as [|[[n u]|] items IH]; intros acc.
  - by exists [].
  - simpl. specialize (IH (<[u:=n]> acc)).
    destruct (build_server_uidls items (<[u:=n]> acc)) as [e|s].
    + destruct IH as [-> Hin]. split; [done|by right].
    + destruct IH as [l ->]. by exists ((n, u) :: l).
  - simpl. split; [done|by left].
Qed.

Lemma foldl_lines_lookup (l : list (Z * string)) u :
  foldl (λ (m : gmap string Z) p, <[p.2 := p.1]> m) ∅ l !! u = last_line l u.
Proof.
  induction l as [|[n u'] l IH] using rev_ind; [done|].
  rewrite foldl_snoc. unfold last_line in *.
  rewrite filter_app, fmap_app, filter_cons, filter_nil. simpl.
  case_decide as Hu.
  - subst u'. simpl. by rewrite last_snoc, lookup_insert_eq.
  - simpl. by rewrite app_nil_r, lookup_insert_ne.
Qed.

Lemma foldl_lines_size (l : list (Z * string)) : ∀ acc : gmap string Z,
  (size (foldl (λ (m : gmap string Z) p, <[p.2 := p.1]> m) acc l)
   ≤ size acc + length l)%nat.
Proof.
  induction l as [|[n u] l IH]; intros acc; simpl; [lia|].
  etrans; [apply IH|]. rewrite map_size_insert.
  destruct (acc !! u); simpl; lia.
Qed.


(** *** The poll: [_fetch_new_mails] *)

Lemma session_lists_false srv :
  session_lists srv = false →
  pop_connect srv && pop_user srv && pop_pass srv = false ∨ listing srv = None.
Proof.
  unfold session_lists. intros H.
  apply andb_false_iff in H as [H|H]; [by left|]. right.
  apply bool_decide_eq_false_1 in H.
  destruct (listing srv); [|done]. exfalso. apply H. by eexists.
Qed.

Lemma pop3_list_fails srv w :
  listing srv = None → ∃ e, pop3_list srv w = (inl e, w).
Proof.
  intros Hl. rewrite pop3_list_run, Hl. unfold listing in Hl.
  destruct (pop_uidl srv) as [l|]; [|by eexists].
  destruct (build_server_uidls l ∅); [by eexists|done].
Qed.

Lemma fetch_refused self srv w :
  session_lists srv = false →
  _fetch_new_mails self srv w =
  (inr [], add_trace [EvPopConnect; EvFetchError] w).
Proof.
  intros Hs. unfold _fetch_new_mails. munfold. rewrite pop3_login_run.
  apply session_lists_false in Hs as [Hlogin|Hlist].
  - rewrite Hlogin. by tr_norm.
  - destruct (pop_connect srv && pop_user srv && pop_pass srv); [|by tr_norm].
    destruct (pop3_list_fails srv (log EvPopConnect w) Hlist) as [e ->].
    by tr_norm.
Qed.

Lemma fetch_unfold self srv w s :
  pop_connect srv && pop_user srv && pop_pass srv = true →
  listing srv = Some s →
  _fetch_new_mails self srv w =
  match fetch_loop self srv s (elements (new_uidls s (dom (db w)))) []
                   (log EvPopConnect w) with
  | ((new_mails, Some _), w3) => (inr new_mails, log EvFetchError w3)
  | ((new_mails, None), w3) =>
      let w4 := log (EvFetchSummary (size s)
                       (size (new_uidls s (dom (db w))))) w3 in
      if pop_quit srv then (inr new_mails, log EvPopQuit w4)
      else (inr new_mails, log EvFetchError w4)
  end.
Proof.
  intros Hlogin Hlist. unfold _fetch_new_mails. munfold.
  rewrite pop3_login_run, Hlogin, pop3_list_run, Hlist.
  unfold _get_retrieved_uidls. by cbn [db log].
Qed.


Lemma verdict_held_back self srv (s : gmap string Z) u n data :
  verdict self srv s u = inr (n, data, true) →
  ∃ lines cutoff mail_date,
    s !! u = Some n ∧ pop_retr srv n = Some lines ∧ data = join_crlf lines ∧
    start_date self = Some cutoff ∧ mail_date_of data = Some mail_date ∧
    dt_lt mail_date cutoff = inr true.
Proof.
  unfold verdict. destruct (s !! u) as [m|] eqn:Hu; [|done].
  destruct (pop_retr srv m) as [lines|] eqn:Hr; [|done]. cbv zeta.
  destruct (start_date self) as [c|]; [|done].
  destruct (mail_date_of (join_crlf lines)) as [d|] eqn:Hd; [|done].
  destruct (dt_lt d c) as [e|b] eqn:Hlt; [done|].
  intros [= -> <- ->]. by exists lines, c, d.
Qed.


Lemma fetch_loop_retrieved self srv (s : gmap string Z) todo : ∀ acc w nm err w',
  fetch_loop self srv s todo acc w = ((nm, err), w') →
  ∃ tr, trace w' = trace w ++ tr ∧
    (∀ t, t ∈ acc → t ∈ nm) ∧
    ∀ u n data, EvRetr u n ∈ tr →
      verdict self srv s u = inr (n, data, false) → mail_tuple u data ∈ nm.
Proof.
  induction todo as [|u rest IH]; intros acc w nm err w' Hrun.
  - simpl in Hrun. simplify_eq. exists []. rewrite app_nil_r.
    split; [done|]. split; [done|]. intros ??? Hin. by apply elem_of_nil in Hin.
  - simpl in Hrun. rewrite fetch_one_run in Hrun.
    destruct (verdict self srv s u) as [e|[[n data] b]] eqn:Hv.
    + simplify_eq.
      exists (match s !! u with Some n => [EvRetr u n] | None => [] end).
      split; [destruct (s !! u); [done|by rewrite app_nil_r]|].
      split; [done|]. intros u' n' data' Hin Hv'.
      destruct (s !! u) as [m|]; [|by apply elem_of_nil in Hin].
      apply elem_of_cons in Hin as [Heq|Hin]; [|by apply elem_of_nil in Hin].
      injection Heq as -> ->. congruence.
    + destruct b.
      * apply IH in Hrun as (tr & Htr & Hacc & Hret).
        simpl in Htr. rewrite <- app_assoc in Htr.
        eexists. split; [exact Htr|]. split; [done|].
        intros u' n' data' Hin Hv'.
        apply elem_of_cons in Hin as [Heq|Hin];
          [injection Heq as -> ->; congruence|].
        apply elem_of_cons in Hin as [Heq|Hin]; [done|]. by eapply Hret.
      * apply IH in Hrun as (tr & Htr & Hacc & Hret).
        simpl in Htr. rewrite <- app_assoc in Htr.
        eexists. split; [exact Htr|].
        split; [intros t Ht; apply Hacc, elem_of_app; by left|].
        intros u' n' data' Hin Hv'.
        apply elem_of_cons in Hin as [Heq|Hin].
        { injection Heq as -> ->. rewrite Hv in Hv'. injection Hv' as <-.
          apply Hacc, elem_of_app. right. by left. }
        by eapply Hret.
Qed.


Lemma fetch_loop_counts self srv (s : gmap string Z) todo : ∀ acc w nm w',
  fetch_loop self srv s todo acc w = ((nm, None), w') →
  ∃ tr, trace w' = trace w ++ tr ∧
    length (filter is_retr tr) = length todo ∧
    (length nm + length (filter is_save tr) = length acc + length todo)%nat ∧
    ticks w' = (ticks w + length (filter is_save tr))%nat.
Proof.
  induction todo as [|u rest IH]; intros acc w nm w' Hrun.
  - simpl in Hrun. injection Hrun as <- <-. exists []. rewrite app_nil_r.
    simpl. split; [done|]. split; [done|]. split; lia.
  - simpl in Hrun. rewrite fetch_one_run in Hrun.
    destruct (verdict self srv s u) as [e|[[n data] b]] eqn:Hv; [done|].
    destruct b.
    + apply IH in Hrun as (tr & Htr & Hretr & Hlen & Hticks).
      simpl in Htr, Hticks. rewrite <- app_assoc in Htr.
      eexists. split; [exact Htr|]. simpl.
      rewrite !filter_cons. simpl. split; [by rewrite Hretr|]. split; lia.
    + apply IH in Hrun as (tr & Htr & Hretr & Hlen & Hticks).
      simpl in Htr, Hticks. rewrite <- app_assoc in Htr.
      eexists. split; [exact Htr|]. simpl.
      rewrite !filter_cons. simpl. split; [by rewrite Hretr|].
      rewrite length_app in Hlen. simpl in Hlen. split; lia.
Qed.


(** *** The two entry points *)


Lemma sweep_event_kind srv d cutoff e :
  sweep_event srv d cutoff e →
  is_forward e = false ∧ is_cycle_summary e = false ∧ e ≠ EvCycleError.
Proof.
  intros [->|[->|[->|[[? ->]|(? & ? & ? & ? & -> & _)]]]]; done.
Qed.

Lemma poll_event_kind self srv d e :
  poll_event self srv d e →
  is_forward e = false ∧ is_cycle_summary e = false ∧ e ≠ EvCycleError.
Proof.
  intros [->|[->|[->|[(? & ? & ->)|[(? & ? & ? & _ & -> & _)|
          (? & ? & ? & ? & _ & -> & _)]]]]]; done.
Qed.

Lemma relay_event_kind l e :
  relay_event l e → is_cycle_summary e = false ∧ e ≠ EvCycleError.
Proof.
  intros [[-> | [-> | [-> | ->]]]|(u' & data & ok & _ & [->| ->])]; done.
Qed.

Lemma filter_none {A} (P : A → bool) (l : list A) :
  Forall (λ x, P x = false) l → filter P l = [].
Proof.
  induction 1 as [|x l Hx _ IH]; [done|].
  rewrite filter_cons, IH. by rewrite Hx.
Qed.

Lemma forward_loop_attempts self smtp l : ∀ n fc ff w,
  ∃ c w' tr,
    forward_loop self 4 smtp n (tuples l) fc ff w = (inr c, w') ∧
    trace w' = trace w ++ tr ∧
    Forall (relay_event l) tr ∧
    length (filter is_forward tr) = length l.
Proof.
  induction l as [|[u data] l IH]; intros n fc ff w.
  - exists (fc, ff), w, []. by rewrite app_nil_r.
  - destruct (forward_step self smtp n u data (tuples l) fc ff w)
      as (ok & noise & Hn & Hstep).
    change (tuples ((u, data) :: l)) with (mail_tuple u data :: tuples l).
    rewrite Hstep.
    edestruct IH as (c & w' & tr & Hrun & Htr & Hev & Hlen).
    exists c, w', (noise ++ [EvForward u ok;
                             EvSave u (sender_of data) (subject_of data) ok]
                   ++ tr).
    split; [exact Hrun|].
    split; [rewrite Htr; simpl; by rewrite <- !app_assoc|].
    split.
    { apply Forall_app. split.
      - eapply Forall_impl; [exact Hn|]. intros e He. by left.
      - constructor.
        { right. exists u, data, ok. split; [by left|by left]. }
        constructor.
        { right. exists u, data, ok. split; [by left|by right]. }
        eapply Forall_impl; [exact Hev|]. intros e. apply relay_event_mono. }
    rewrite filter_app, (filter_forward_noise _ Hn). simpl.
    rewrite !filter_cons. simpl. by rewrite Hlen.
Qed.

Lemma sweep_trace self srv w :
  ∃ ws tr,
    _delete_old_mails self srv w = (inr tt, ws) ∧
    trace ws = trace w ++ tr ∧
    Forall (λ e, is_forward e = false ∧ is_cycle_summary e = false ∧
                 e ≠ EvCycleError) tr.
Proof.
  destruct (decide (default 30 (mail_retention_days (cfg self)) = 0))
    as [H0|H0].
  - exists w, []. rewrite sweep_off by done. by rewrite app_nil_r.
  - destruct (sweep_run self srv w H0) as (d' & tr & Hrun & Hev & _).
    eexists _, tr. split; [exact Hrun|]. split; [done|].
    eapply Forall_impl; [exact Hev|]. intros e. apply sweep_event_kind.
Qed.

Lemma daemon_cycle_run self c w :
  ∃ w' tr n,
    daemon_cycle self c w = (inr tt, w') ∧
    trace w' = trace w ++ tr ++ [EvCycleSummary n] ∧
    Forall (λ e, is_cycle_summary e = false ∧ e ≠ EvCycleError) tr ∧
    length (filter is_forward tr) = n.
Proof.
  destruct (sweep_trace self (sweep_session c) w) as (ws & trs & Hs & Htrs & Hevs).
  destruct (fetch_run self (fetch_session c) ws)
    as (l & wp & trp & Hf & Htrp & Hevp & _).
  destruct (forward_loop_attempts self (smtp_sessions c) l 0 0 0 wp)
    as (c2 & wr & trr & Hrun & Htrr & Hevr & Hlen).
  exists (log (EvCycleSummary (length l)) wr), (trs ++ trp ++ trr), (length l).
  split.
  { unfold daemon_cycle. munfold. rewrite Hs.
    rewrite (reconcile_unfold _ _ _ _ _ _ _ Hf), Hrun. simpl.
    unfold tuples. by rewrite length_fmap. }
  split.
  { simpl. rewrite Htrr, Htrp, Htrs. by rewrite <- !app_assoc. }
  split.
  { apply Forall_app. split.
    - eapply Forall_impl; [exact Hevs|]. by intros e (_ & ? & ?).
    - apply Forall_app. split.
      + eapply Forall_impl; [exact Hevp|]. intros e He.
        by destruct (poll_event_kind _ _ _ _ He) as (_ & ? & ?).
      + eapply Forall_impl; [exact Hevr|]. intros e. apply relay_event_kind. }
  rewrite !filter_app, !length_app.
  rewrite (filter_none is_forward trs), (filter_none is_forward trp).
  - by rewrite Hlen.
  - eapply Forall_impl; [exact Hevp|]. intros e He.
    by destruct (poll_event_kind _ _ _ _ He) as (? & _).
  - eapply Forall_impl; [exact Hevs|]. by intros e (? & _).
Qed.




(** *** The sweeper: refused deletions, a failed QUIT, the count *)

Lemma sweep_unfold self srv w (s : gmap string Z) :
  default 30 (mail_retention_days (cfg self)) ≠ 0 →
  let cutoff :=
    clk (ticks w) - default 30 (mail_retention_days (cfg self)) * day in
  select_old cutoff (db w) ≠ [] →
  pop_connect srv && pop_user srv && pop_pass srv = true →
  listing srv = Some s →
  _delete_old_mails self srv w =
  match delete_loop srv s (select_old cutoff (db w)) (db w) 0%nat
          (log EvPopConnect
             {| db := db w; ticks := S (ticks w); trace := trace w |}) with
  | (inl _, w2) => (inr tt, log EvSweepError w2)
  | (inr pc, w2) =>
      if pop_quit srv
      then (inr tt, log (EvSweepSummary pc.2) (log EvPopQuit (set_db pc.1 w2)))
      else (inr tt, log EvSweepError (set_db pc.1 w2))
  end.
Proof.
  intros Hdays cutoff Hsel Hlogin Hlist. unfold _delete_old_mails.
  rewrite bool_decide_eq_false_2 by done.
  munfold. unfold datetime_now. cbv beta. cbn [db ticks trace]. fold cutoff.
  destruct (select_old cutoff (db w)) as [|x0 rows] eqn:Hs; [done|].
  rewrite pop3_login_run, Hlogin, pop3_list_run, Hlist.
  destruct (delete_loop srv s (x0 :: rows) (db w) 0
              (log EvPopConnect
                 {| db := db w; ticks := S (ticks w); trace := trace w |}))
    as [[e|pc] w2]; [done|].
  unfold pop3_quit. munfold. by destruct (pop_quit srv).
Qed.

Lemma delete_loop_count srv (s : gmap string Z) rows : ∀ pending cnt w pc w',
  delete_loop srv s rows pending cnt w = (inr pc, w') →
  ∃ tr, w' = add_trace tr w ∧
    Forall (λ e, is_dele e = true) tr ∧
    pc.2 = (cnt + length tr)%nat ∧
    length tr =
      length (filter (λ x : string * string * string, is_Some (s !! x.1.1))
                     rows).
Proof.
  induction rows as [|[[u f] sj] rows IH]; intros pending cnt w pc w' Hrun.
  - simpl in Hrun. munfold. injection Hrun as <- <-. exists [].
    rewrite add_trace_nil. simpl. split; [done|]. split; [done|].
    split; [lia|done].
  - simpl in Hrun. rewrite filter_cons. simpl.
    destruct (s !! u) as [n|] eqn:Hu.
    + munfold. destruct (pop_dele srv n); simpl in Hrun; [|done].
      apply IH in Hrun as (tr & -> & Hev & Hcnt & Hlen).
      exists (EvDele u n :: tr).
      split; [by rewrite log_add_trace, add_trace_app|].
      split; [by constructor|].
      rewrite decide_True by (by eexists). simpl. split; lia.
    + apply IH in Hrun as (tr & -> & Hev & Hcnt & Hlen).
      exists tr. split; [done|]. split; [done|].
      rewrite decide_False; [done|]. by intros [? ?].
Qed.

Lemma delete_loop_refused srv (s : gmap string Z) rows : ∀ pending cnt w e w',
  delete_loop srv s rows pending cnt w = (inl e, w') →
  ∃ tr u n,
    w' = add_trace (tr ++ [EvDele u n]) w ∧
    Forall (λ e, is_dele e = true) tr ∧
    s !! u = Some n ∧ pop_dele srv n = false.
Proof.
  induction rows as [|[[u f] sj] rows IH]; intros pending cnt w e w' Hrun;
    [done|].
  simpl in Hrun. destruct (s !! u) as [n|] eqn:Hu.
  - munfold. destruct (pop_dele srv n) eqn:Hd; simpl in Hrun.
    + apply IH in Hrun as (tr & u' & n' & -> & Hev & Hu' & Hd').
      exists (EvDele u n :: tr), u', n'.
      split; [by rewrite log_add_trace, add_trace_app|].
      split; [by constructor|done].
    + injection Hrun as _ <-. by exists [], u, n.
  - by apply IH in Hrun.
Qed.

(** X13: A DELE the mailbox refuses undoes the sweep in the ledger.  When
    the session logs in and lists, and the mailbox refuses the deletion of
    a message whose row is selected, the sweeper returns with the ledger
    exactly as it was, although deletions may already have been sent: the
    refused DELE is the last command of the session, the error is logged,
    no QUIT is sent and no count is reported. *)
Theorem refused_dele_keeps_the_ledger self srv w (s : gmap string Z) u r n :
  default 30 (mail_retention_days (cfg self)) ≠ 0 →
  let cutoff :=
    clk (ticks w) - default 30 (mail_retention_days (cfg self)) * day in
  pop_connect srv && pop_user srv && pop_pass srv = true →
  listing srv = Some s →
  db w !! u = Some r → selected cutoff r → s !! u = Some n →
  pop_dele srv n = false →
  ∃ w' sent u' n',
    _delete_old_mails self srv w = (inr tt, w') ∧
    db w' = db w ∧
    trace w' =
      trace w ++ [EvPopConnect] ++ sent ++ [EvDele u' n'; EvSweepError] ∧
    Forall (λ e, is_dele e = true) sent ∧
    s !! u' = Some n' ∧ pop_dele srv n' = false.
Proof using clk.
  clear header parseaddr_addr parsedate_to_datetime.
  intros Hdays cutoff Hlogin Hlist Hu Hsel Hn Hdele.
  assert (Hin : (u, from_addr r, subject r) ∈ select_old cutoff (db w))
    by (apply select_old_spec; eauto).
  assert (Hne : select_old cutoff (db w) ≠ []).
  { intros Hnil. rewrite Hnil in Hin. by apply elem_of_nil in Hin. }
  rewrite (sweep_unfold self srv w s Hdays Hne Hlogin Hlist). fold cutoff.
  set (w1 := log EvPopConnect
               {| db := db w; ticks := S (ticks w); trace := trace w |}).
  destruct (delete_loop_run srv s (select_old cutoff (db w)) (db w) 0%nat w1)
    as (res & tr & Hrun & _ & Hres).
  destruct res as [e|pc].
  2: { destruct Hres as [_ Hall]. destruct (Hall _ _ _ _ Hin Hn). congruence. }
  pose proof (delete_loop_refused _ _ _ _ _ _ _ _ Hrun)
    as (sent & u' & n' & Hw' & Hsent & Hu' & Hd').
  rewrite Hrun, Hw'.
  exists (log EvSweepError (add_trace (sent ++ [EvDele u' n']) w1)), sent, u', n'.
  split; [done|]. split; [done|].
  split; [by tr_norm|done].
Qed.

(** X14: A QUIT that fails comes too late for the ledger.  When the session
    logs in and lists and every deletion is accepted, the rows selected
    have left the ledger even if QUIT then raises: the commit precedes it.
    The sweeper logs the error in place of the count. *)
Theorem failed_quit_still_forgets self srv w (s : gmap string Z) u r :
  default 30 (mail_retention_days (cfg self)) ≠ 0 →
  let cutoff :=
    clk (ticks w) - default 30 (mail_retention_days (cfg self)) * day in
  pop_connect srv && pop_user srv && pop_pass srv = true →
  listing srv = Some s →
  (∀ n, pop_dele srv n = true) →
  db w !! u = Some r → selected cutoff r →
  pop_quit srv = false →
  ∃ w' sent,
    _delete_old_mails self srv w = (inr tt, w') ∧
    db w' = swept cutoff (db w) ∧ db w' !! u = None ∧
    trace w' = trace w ++ [EvPopConnect] ++ sent ++ [EvSweepError] ∧
    Forall (λ e, is_dele e = true) sent.
Proof using clk.
  clear header parseaddr_addr parsedate_to_datetime.
  intros Hdays cutoff Hlogin Hlist Hdele Hu Hsel Hquit.
  assert (Hin : (u, from_addr r, subject r) ∈ select_old cutoff (db w))
    by (apply select_old_spec; eauto).
  assert (Hne : select_old cutoff (db w) ≠ []).
  { intros Hnil. rewrite Hnil in Hin. by apply elem_of_nil in Hin. }
  rewrite (sweep_unfold self srv w s Hdays Hne Hlogin Hlist). fold cutoff.
  set (w1 := log EvPopConnect
               {| db := db w; ticks := S (ticks w); trace := trace w |}).
  destruct (delete_loop_run srv s (select_old cutoff (db w)) (db w) 0%nat w1)
    as (res & tr & Hrun & _ & Hres).
  destruct res as [e|pc].
  { destruct Hres as (? & ? & ? & n & _ & _ & Hf). rewrite Hdele in Hf. done. }
  pose proof (delete_loop_count _ _ _ _ _ _ _ _ Hrun)
    as (sent & Hw' & Hsent & _).
  destruct Hres as [Hpc _]. rewrite swept_select_old in Hpc.
  rewrite Hrun, Hquit, Hw', Hpc.
  eexists _, sent. split; [done|]. split; [done|].
  split; [simpl; rewrite swept_lookup, Hu; by rewrite decide_True|].
  split; [by tr_norm|done].
Qed.

(** X15: The count the sweeper reports.  Whenever the sweeper logs its
    summary, the session ended with QUIT, every selected row has left the
    ledger, and the number reported is the number of DELE commands sent,
    which is the number of selected rows whose UIDL the mailbox still
    listed: a selected row whose message is gone from the mailbox is
    deleted from the ledger without being counted. *)
Theorem sweep_summary_counts_the_deles self srv w :
  let cutoff :=
    clk (ticks w) - default 30 (mail_retention_days (cfg self)) * day in
  ∃ w' tr,
    _delete_old_mails self srv w = (inr tt, w') ∧
    trace w' = trace w ++ tr ∧
    ∀ m, EvSweepSummary m ∈ tr →
      pop_quit srv = true ∧
      db w' = swept cutoff (db w) ∧
      m = length (filter is_dele tr) ∧
      ∃ s, listing srv = Some s ∧
        m = length (filter (λ x : string * string * string,
                              is_Some (s !! x.1.1))
                           (select_old cutoff (db w))).
Proof using clk.
  clear header parseaddr_addr parsedate_to_datetime.
  intros cutoff.
  destruct (decide (default 30 (mail_retention_days (cfg self)) = 0))
    as [H0|Hdays].
  { exists w, []. rewrite sweep_off by done. rewrite app_nil_r.
    split; [done|]. split; [done|]. intros m Hin. by apply elem_of_nil in Hin. }
  destruct (sweep_run self srv w Hdays) as (d' & tr & Hrun & Hev & Hd & Hnil & _).
  fold cutoff in Hev, Hd, Hnil.
  eexists _, tr. split; [exact Hrun|]. split; [done|].
  intros m Hm.
  assert (Hne : select_old cutoff (db w) ≠ []).
  { intros Hs. rewrite (Hnil Hs) in Hm. by apply elem_of_nil in Hm. }
  destruct (pop_connect srv && pop_user srv && pop_pass srv) eqn:Hlogin.
  2: { exfalso. revert Hrun Hm. unfold _delete_old_mails.
       rewrite bool_decide_eq_false_2 by done.
       munfold. unfold datetime_now. cbv beta. cbn [db ticks trace].
       fold cutoff.
       destruct (select_old cutoff (db w)) as [|x0 rows]; [done|].
       rewrite pop3_login_run, Hlogin. tr_norm. intros [= _ Htr].
       apply app_inv_head in Htr. subst tr. intros Hm. not_in_list Hm. }
  destruct (listing srv) as [s|] eqn:Hlist.
  2: { exfalso. revert Hrun Hm. unfold _delete_old_mails.
       rewrite bool_decide_eq_false_2 by done.
       munfold. unfold datetime_now. cbv beta. cbn [db ticks trace].
       fold cutoff.
       destruct (select_old cutoff (db w)) as [|x0 rows]; [done|].
       rewrite pop3_login_run, Hlogin.
       destruct (pop3_list_fails srv
                   (log EvPopConnect
                      {| db := db w; ticks := S (ticks w); trace := trace w |})
                   Hlist) as [e ->].
       tr_norm. intros [= _ Htr].
       apply app_inv_head in Htr. subst tr. intros Hm. not_in_list Hm. }
  rewrite (sweep_unfold self srv w s Hdays Hne Hlogin Hlist) in Hrun.
  fold cutoff in Hrun.
  set (w1 := log EvPopConnect
               {| db := db w; ticks := S (ticks w); trace := trace w |}) in *.
  destruct (delete_loop srv s (select_old cutoff (db w)) (db w) 0 w1)
    as [[e|pc] w2] eqn:Hloop.
  - exfalso.
    pose proof (delete_loop_refused _ _ _ _ _ _ _ _ Hloop)
      as (sent & u' & n' & -> & Hsent & _).
    revert Hrun. tr_norm. intros [= _ Htr].
    apply app_inv_head in Htr. subst tr.
    apply elem_of_cons in Hm as [?|Hm]; [done|].
    apply elem_of_app in Hm as [Hm|Hm]; [|not_in_list Hm].
    rewrite Forall_forall in Hsent. by apply Hsent in Hm.
  - pose proof (delete_loop_count _ _ _ _ _ _ _ _ Hloop)
      as (sent & -> & Hsent & Hcnt & Hlen).
    destruct (delete_loop_run srv s (select_old cutoff (db w)) (db w) 0%nat w1)
      as (res & tr' & Hrun' & _ & Hres).
    rewrite Hloop in Hrun'. injection Hrun' as <- _.
    destruct Hres as [Hpc _]. rewrite swept_select_old in Hpc.
    assert (Hf : filter is_dele sent = sent).
    { clear -Hsent. induction Hsent as [|e sent He _ IH]; [done|].
      rewrite filter_cons, IH. by rewrite He. }
    destruct (pop_quit srv) eqn:Hquit; revert Hrun; tr_norm;
      intros [= Hdb Htr]; apply app_inv_head in Htr; subst tr.
    + apply elem_of_cons in Hm as [?|Hm]; [done|].
      apply elem_of_app in Hm as [Hm|Hm].
      { rewrite Forall_forall in Hsent. by apply Hsent in Hm. }
      apply elem_of_cons in Hm as [?|Hm]; [done|].
      apply elem_of_cons in Hm as [Hm|Hm]; [|by apply elem_of_nil in Hm].
      injection Hm as ->.
      split; [done|]. split; [by rewrite <- Hdb, Hpc|].
      split.
      * rewrite filter_cons, filter_app. simpl. rewrite Hf. simpl.
        rewrite length_app. simpl. lia.
      * exists s. split; [done|]. lia.
    + exfalso. apply elem_of_cons in Hm as [?|Hm]; [done|].
      apply elem_of_app in Hm as [Hm|Hm]; [|not_in_list Hm].
      rewrite Forall_forall in Hsent. by apply Hsent in Hm.
Qed.

(** *** Sweeper and poll together *)


(** *** The daemon and its waits *)

Lemma daemon_body_returns self c w :
  (_delete_old_mails self (sweep_session c) ;;
   r ← reconcile self 4 (fetch_session c) (smtp_sessions c);
   emit (EvCycleSummary r.1)) w = (inr tt, (daemon_cycle self c w).2) ∧
  daemon_cycle self c w = (inr tt, (daemon_cycle self c w).2).
Proof.
  destruct (sweep_returns self (sweep_session c) w) as [ws Hs].
  destruct (fetch_run self (fetch_session c) ws) as (l & wp & trp & Hf & _).
  destruct (forward_loop_attempts self (smtp_sessions c) l 0 0 0 wp)
    as (c2 & wr & trr & Hrun & _).
  unfold daemon_cycle. munfold. rewrite Hs.
  by rewrite (reconcile_unfold _ _ _ _ _ _ _ Hf), Hrun.
Qed.

Lemma daemon_turn_run self interval c alive w :
  daemon_turn self interval c alive w =
  match alive with
  | O => (inr O, (daemon_cycle self c w).2)
  | S alive' =>
      if 0 <=? interval then (inr alive', (daemon_cycle self c w).2)
      else match alive' with
           | O => (inr O, log EvCycleError (daemon_cycle self c w).2)
           | S _ => (inl ValueError, log EvCycleError (daemon_cycle self c w).2)
           end
  end.
Proof.
  unfold daemon_turn. destruct (daemon_body_returns self c w) as [-> _].
  destruct alive as [|alive']; [done|].
  unfold handler_wait, time_sleep. munfold.
  destruct (0 <=? interval); [done|]. simpl. by destruct alive'.
Qed.


End forwarder.

(** ** Connection set-up, connection test and command line *)

Lemma starts_with_spec needle : ∀ text,
  starts_with needle text = true ↔ ∃ post, text = needle +:+ post.
Proof.
  induction needle as [|a needle IH]; intros text.
  - simpl. split; [by exists text|done].
  - destruct text as [|b text]; simpl.
    + split; [done|]. by intros [post ?].
    + rewrite andb_true_iff, bool_decide_eq_true, IH. split.
      * intros [-> [post ->]]. by exists post.
      * intros [post [= -> ->]]. split; [done|]. by exists post.
Qed.

Lemma contains_spec needle : ∀ text,
  contains needle text = true ↔ ∃ pre post, text = pre +:+ needle +:+ post.
Proof.
  induction text as [|b text IH]; simpl.
  - rewrite orb_false_r, starts_with_spec. split.
    + intros [post ->]. by exists "", post.
    + intros [[|? ?] [post Heq]]; [by exists post|done].
  - rewrite orb_true_iff, starts_with_spec, IH. split.
    + intros [[post ->]|(pre & post & ->)].
      * by exists "", post.
      * by exists (String b pre), post.
    + intros [[|a pre] [post Heq]].
      * left. by exists post.
      * right. injection Heq as -> ->. by exists pre, post.
Qed.

Lemma lower_app (s1 s2 : string) : lower (s1 +:+ s2) = lower s1 +:+ lower s2.
Proof. induction s1 as [|a s1 IH]; simpl; [done|]. by rewrite IH. Qed.

Ltac not_in_conn H :=
  repeat (apply elem_of_cons in H as [H|H]; [discriminate H|]);
  by apply elem_of_nil in H.
Ltac conn_in_list :=
  split; [intros ?Hin; first [reflexivity | done | not_in_conn Hin]
         |intros ?Heq; first [discriminate Heq | done
                             | repeat first [by left | right]]].

(** X18: [create_pop3_connection] lowers the security of the connection only
    for a server whose key is too small.  Without [use_ssl] it makes one
    attempt, in the clear; with [use_ssl] it never connects in the clear:
    it tries the default context, and goes on to [SECLEVEL=1] exactly when
    that attempt raised an [ssl.SSLError] whose text, in lower case,
    contains "dh key too small".  What it returns or raises is the answer
    to the last attempt it made: a second failure replaces the first, and
    any other error of the first attempt is passed on unchanged. *)
Theorem security_is_lowered_only_for_a_small_dh_key {C : Type}
    (answer : security → connect_error + C) (use_ssl logger : bool) :
  let run := create_pop3_connection answer use_ssl logger in
  (Connect Cleartext ∈ run.1 ↔ use_ssl = false) ∧
  (Connect StandardTLS ∈ run.1 ↔ use_ssl = true) ∧
  (Connect SecLevel1 ∈ run.1 ↔
   use_ssl = true ∧
   ∃ text pre post,
     answer StandardTLS = inl (SSLError text) ∧
     lower text = pre +:+ "dh key too small" +:+ post) ∧
  run.2 = answer (if negb use_ssl then Cleartext
                  else if bool_decide (Connect SecLevel1 ∈ run.1)
                       then SecLevel1 else StandardTLS).
Proof.
  intros run. subst run. unfold create_pop3_connection, logged.
  destruct use_ssl; simpl.
  2: { split; [conn_in_list|]. split; [conn_in_list|]. split; [|done].
       split; [intros Hin; not_in_conn Hin|by intros [? _]]. }
  destruct (answer StandardTLS) as [[text|]|pop_conn] eqn:Hstd.
  - destruct (contains "dh key too small" (lower text)) eqn:Hc.
    + apply contains_spec in Hc as (pre & post & Hc).
      destruct (answer SecLevel1) as [e|pop_conn] eqn:Hlow;
        destruct logger; simpl;
        (split; [conn_in_list|]); (split; [conn_in_list|]);
        (split; [split; [intros _; split; [done|]; by exists text, pre, post
                        |intros _; repeat first [by left | right]]|]);
        rewrite ?bool_decide_eq_true_2 by (repeat first [by left | right]);
        by rewrite ?Hlow.
    + assert (Hno : ∀ pre post,
                lower text ≠ pre +:+ "dh key too small" +:+ post).
      { intros pre post Heq.
        assert (contains "dh key too small" (lower text) = true)
          by (apply contains_spec; by exists pre, post).
        congruence. }
      destruct logger; simpl;
        (split; [conn_in_list|]); (split; [conn_in_list|]);
        (split;
           [split; [intros Hin; not_in_conn Hin|];
            intros [_ (t & pre & post & [= <-] & Heq)];
            by destruct (Hno pre post)|]);
        first [by rewrite ?Hstd
              |rewrite bool_decide_eq_false_2;
               [by rewrite ?Hstd|intros Hin; not_in_conn Hin]].
  - destruct logger; simpl;
      (split; [conn_in_list|]); (split; [conn_in_list|]);
      (split;
         [split; [intros Hin; not_in_conn Hin|];
          by intros [_ (t & pre & post & ? & _)]|]);
      first [by rewrite ?Hstd
            |rewrite bool_decide_eq_false_2;
             [by rewrite ?Hstd|intros Hin; not_in_conn Hin]].
  - destruct logger; simpl;
      (split; [conn_in_list|]); (split; [conn_in_list|]);
      (split;
         [split; [intros Hin; not_in_conn Hin|];
          by intros [_ (t & pre & post & ? & _)]|]);
      first [by rewrite ?Hstd
            |rewrite bool_decide_eq_false_2;
             [by rewrite ?Hstd|intros Hin; not_in_conn Hin]].
Qed.

Lemma create_pop3_connection_quiet {C : Type}
    (answer : security → connect_error + C) (use_ssl logger : bool) :
  (create_pop3_connection answer use_ssl logger).2 =
    (create_pop3_connection answer use_ssl false).2 ∧
  filter is_connect (create_pop3_connection answer use_ssl logger).1 =
    (create_pop3_connection answer use_ssl false).1.
Proof.
  unfold create_pop3_connection, logged. destruct use_ssl; simpl; [|done].
  destruct (answer StandardTLS) as [[text|]|pop_conn];
    [destruct (contains "dh key too small" (lower text));
     [destruct (answer SecLevel1)|]| |];
    by destruct logger.
Qed.

(** X19: Logging plays no part in the connection.  With and without a logger
    [create_pop3_connection] makes the same attempts and ends the same
    way; without one it records nothing but its attempts, of which there
    are at most two; and a text that holds the phrase in any mix of upper
    and lower case makes it try again. *)
Theorem connection_does_not_depend_on_the_logger {C : Type}
    (answer : security → connect_error + C) (use_ssl logger : bool) :
  let run := create_pop3_connection answer use_ssl logger in
  let quiet := create_pop3_connection answer use_ssl false in
  run.2 = quiet.2 ∧
  filter is_connect run.1 = quiet.1 ∧
  Forall (λ e, is_connect e = true) quiet.1 ∧
  (1 ≤ length quiet.1 ≤ 2)%nat ∧
  ∀ pre phrase post,
    use_ssl = true →
    answer StandardTLS = inl (SSLError (pre +:+ phrase +:+ post)) →
    lower phrase = "dh key too small" →
    Connect SecLevel1 ∈ run.1.
Proof.
  intros run quiet.
  destruct (create_pop3_connection_quiet answer use_ssl logger) as [H1 H2].
  split; [done|]. split; [done|].
  split.
  { subst quiet. unfold create_pop3_connection, logged.
    destruct use_ssl; simpl; [|by repeat constructor].
    destruct (answer StandardTLS) as [[text|]|pop_conn];
      [destruct (contains "dh key too small" (lower text));
       [destruct (answer SecLevel1)|]| |];
      by repeat constructor. }
  split.
  { subst quiet. unfold create_pop3_connection, logged.
    destruct use_ssl; simpl; [|lia].
    destruct (answer StandardTLS) as [[text|]|pop_conn];
      [destruct (contains "dh key too small" (lower text));
       [destruct (answer SecLevel1)|]| |];
      simpl; lia. }
  intros pre phrase post -> Hstd Hphrase. subst run.
  unfold create_pop3_connection, logged. simpl. rewrite Hstd.
  assert (Hc : contains "dh key too small"
                 (lower (pre +:+ phrase +:+ post)) = true).
  { apply contains_spec. exists (lower pre), (lower post).
    by rewrite !lower_app, Hphrase. }
  rewrite Hc.
  destruct (answer SecLevel1), logger; simpl; repeat first [by left | right].
Qed.

Lemma probe_pop3_passes answer use_ssl :
  (probe_pop3 answer use_ssl).2 = session_passes (session_of answer use_ssl).
Proof.
  unfold probe_pop3, session_of, session_passes.
  destruct (create_pop3_connection_quiet answer (default true use_ssl) true)
    as [-> _].
  destruct (create_pop3_connection answer (default true use_ssl) false).2
    as [e|pop_conn]; [done|]. simpl.
  by destruct (pop_user pop_conn), (pop_pass pop_conn).
Qed.

Lemma probe_pop3_events answer use_ssl :
  Forall (λ e, e ≠ PrAllPassed ∧ e ≠ PrStartTls ∧ ∀ b, e ≠ PrSmtp b)
         (probe_pop3 answer use_ssl).1.
Proof.
  unfold probe_pop3.
  assert (Hpop : ∀ l : list connect_event,
            Forall (λ e, e ≠ PrAllPassed ∧ e ≠ PrStartTls ∧ ∀ b, e ≠ PrSmtp b)
                   (PrPop <$> l)).
  { intros l. apply Forall_fmap, Forall_forall. by intros e _. }
  destruct (create_pop3_connection answer (default true use_ssl) false).2
    as [e|pop_conn]; [apply Hpop|].
  destruct (pop_user pop_conn), (pop_pass pop_conn); simpl;
    (apply Forall_app; split; [apply Hpop|by repeat constructor]).
Qed.

Lemma probe_smtp_passes c smtp :
  (probe_smtp c smtp).2 = smtp_passes c smtp.
Proof.
  unfold probe_smtp, probe_login, smtp_passes.
  destruct (bool_decide (smtp_port c = 465)), (smtp_connect smtp),
    (default true (smtp_use_tls c)), (smtp_starttls smtp), (smtp_login smtp);
    done.
Qed.

Lemma probe_smtp_events c smtp :
  PrSmtp (bool_decide (smtp_port c = 465)) ∈ (probe_smtp c smtp).1 ∧
  (PrAllPassed ∉ (probe_smtp c smtp).1) ∧
  (PrStartTls ∈ (probe_smtp c smtp).1 →
   smtp_port c ≠ 465 ∧ smtp_use_tls c ≠ Some false).
Proof.
  unfold probe_smtp, probe_login.
  destruct (bool_decide (smtp_port c = 465)) eqn:Hp;
    [apply bool_decide_eq_true_1 in Hp|apply bool_decide_eq_false_1 in Hp];
    destruct (smtp_connect smtp), (smtp_use_tls c) as [[|]|],
      (smtp_starttls smtp), (smtp_login smtp); simpl;
    (split; [by left|]);
    (split; [intros Hin; not_in_conn Hin|]);
    first [by intros _ | intros Hin; not_in_conn Hin].
Qed.

Lemma test_config_flag use_ssl c pop3 pbs smtp :
  (test_config (Loaded use_ssl c) pop3 pbs smtp).2 =
  session_passes (session_of pop3 use_ssl) &&
  (negb (default false (pop_before_smtp c)) ||
   session_passes (session_of pbs use_ssl)) &&
  smtp_passes c smtp.
Proof.
  unfold test_config. cbv zeta. cbn [snd].
  rewrite probe_pop3_passes, probe_smtp_passes.
  destruct (default false (pop_before_smtp c)); [|done].
  by rewrite probe_pop3_passes.
Qed.

(** X20: [test_config] returns [False] at once, contacting nobody, when the
    configuration file is missing or is no YAML.  Otherwise it runs every
    probe that is configured, whatever the earlier ones gave: the SMTP
    server is contacted even when the mailbox refused.  It returns [True],
    and prints the closing banner, exactly when the POP3 session, the
    session of POP before SMTP where that is switched on, and the SMTP
    session all went through to QUIT; STARTTLS is sent only off port 465
    and only unless [use_tls] is off. *)
Theorem test_config_outcome file pop3 pbs smtp :
  let run := test_config file pop3 pbs smtp in
  match file with
  | FileNotFound | YAMLError => run = ([], false)
  | Loaded use_ssl c =>
      run.2 =
        session_passes (session_of pop3 use_ssl) &&
        (negb (default false (pop_before_smtp c)) ||
         session_passes (session_of pbs use_ssl)) &&
        smtp_passes c smtp ∧
      PrSmtp (bool_decide (smtp_port c = 465)) ∈ run.1 ∧
      (PrAllPassed ∈ run.1 ↔ run.2 = true) ∧
      (PrStartTls ∈ run.1 → smtp_port c ≠ 465 ∧ smtp_use_tls c ≠ Some false)
  end.
Proof.
  intros run. subst run. destruct file as [| |use_ssl c]; [done|done|].
  unfold test_config. cbv zeta. cbn [fst snd].
  pose proof (probe_pop3_events pop3 use_ssl) as H1.
  pose proof (probe_pop3_events pbs use_ssl) as H2.
  destruct (probe_smtp_events c smtp) as (H3a & H3b & H3c).
  rewrite Forall_forall in H1. rewrite Forall_forall in H2.
  set (p2 := if default false (pop_before_smtp c)
             then probe_pop3 pbs use_ssl else ([], true)).
  assert (Hp2 : ∀ e, e ∈ p2.1 → e ≠ PrAllPassed ∧ e ≠ PrStartTls).
  { intros e He. subst p2. destruct (default false (pop_before_smtp c)).
    - destruct (H2 _ He) as (? & ? & _). done.
    - by apply elem_of_nil in He. }
  assert (Hp2' : p2.2 = negb (default false (pop_before_smtp c)) ||
                        session_passes (session_of pbs use_ssl)).
  { subst p2. destruct (default false (pop_before_smtp c)); [|done].
    simpl. apply probe_pop3_passes. }
  split; [by rewrite Hp2', probe_pop3_passes, probe_smtp_passes|].
  split; [apply elem_of_app; right; apply elem_of_app; right;
          apply elem_of_app; by left|].
  split.
  - split.
    + intros Hin. apply elem_of_app in Hin as [Hin|Hin];
        [by destruct (H1 _ Hin)|].
      apply elem_of_app in Hin as [Hin|Hin]; [by destruct (Hp2 _ Hin)|].
      apply elem_of_app in Hin as [Hin|Hin]; [done|].
      destruct ((probe_pop3 pop3 use_ssl).2 && p2.2 && (probe_smtp c smtp).2);
        [done|by apply elem_of_nil in Hin].
    + intros ->. do 3 (apply elem_of_app; right). by left.
  - intros Hin. apply elem_of_app in Hin as [Hin|Hin];
      [by destruct (H1 _ Hin) as (_ & ? & _)|].
    apply elem_of_app in Hin as [Hin|Hin]; [by destruct (Hp2 _ Hin)|].
    apply elem_of_app in Hin as [Hin|Hin]; [by apply H3c|].
    destruct ((probe_pop3 pop3 use_ssl).2 && p2.2 && (probe_smtp c smtp).2);
      [not_in_conn Hin|by apply elem_of_nil in Hin].
Qed.

(** X21: A connection test that passes leaves the relay only one way to fail.
    When [test_config] returned [True] for the configuration the forwarder
    runs with, and the servers answer the forwarder as they answered the
    test, [_forward_mail] returns whatever [sendmail] makes of the
    message: every other step of the relay goes through. *)
Theorem passed_test_leaves_only_sendmail self use_ssl pop3 pbs smtp :
  (test_config (Loaded use_ssl (cfg self)) pop3 pbs smtp).2 = true →
  pbs_session smtp = session_of pbs use_ssl →
  ∀ data from subj w,
    (_forward_mail self smtp data from subj w).1 =
    inr (smtp_sendmail smtp data).
Proof.
  intros Hpass Hpbs data from subj w.
  destruct (forward_mail_accepts self smtp data from subj w) as (tr & -> & _).
  cbn [fst]. f_equal.
  pose proof (test_config_flag use_ssl (cfg self) pop3 pbs smtp) as Hout.
  rewrite Hpass in Hout. symmetry in Hout.
  apply andb_true_iff in Hout as [Hout Hsmtp].
  apply andb_true_iff in Hout as [_ Hsess].
  unfold relay_accepts. rewrite Hpbs.
  unfold smtp_passes in Hsmtp.
  apply andb_true_iff in Hsmtp as [Hsmtp Hquit].
  apply andb_true_iff in Hsmtp as [Hsmtp Hlogin].
  apply andb_true_iff in Hsmtp as [Hconn Htls].
  rewrite Hconn, Htls, Hlogin, Hquit. simpl. rewrite andb_true_r.
  destruct (default false (pop_before_smtp (cfg self))); [|done].
  simpl in Hsess. unfold session_passes in Hsess. by rewrite Hsess.
Qed.

Lemma parse_start_date_cases strptime s :
  match parse_start_date strptime s with
  | inl e =>
      e = ValueError ∧ strptime s "%Y-%m-%d %H:%M:%S" = None ∧
      strptime s "%Y-%m-%d" = None
  | inr d =>
      aware d = true ∧
      (strptime s "%Y-%m-%d %H:%M:%S" = Some (instant d + jst) ∨
       strptime s "%Y-%m-%d %H:%M:%S" = None ∧
       strptime s "%Y-%m-%d" = Some (instant d + jst))
  end.
Proof.
  unfold parse_start_date.
  destruct (strptime s "%Y-%m-%d %H:%M:%S") as [t|] eqn:H1; simpl.
  - split; [done|]. left. f_equal. lia.
  - destruct (strptime s "%Y-%m-%d") as [t|] eqn:H2; simpl; [|done].
    split; [done|]. right. split; [done|]. f_equal. lia.
Qed.

Ltac main_leaf :=
  repeat match goal with
         | |- _ ∧ _ => split
         | |- _ ↔ _ => split
         | |- ¬ _ => intros ?
         | |- _ → _ => intros ?
         | |- ∀ _, _ => intros ?
         | H : ∃ _, _ |- _ => destruct H
         | H : _ ∧ _ |- _ => destruct H
         | H : _ ∨ _ |- _ => destruct H
         end;
  try done; try congruence.


(** ** The claims at work on the demonstration mailbox *)








(** The mailbox refuses the connection: the ledger is untouched. *)
Lemma C9_witness :
  db (_delete_old_mails demo_clk (sweep_self 30) down_pop demo_w1).2 = demo_db.
Proof.
  destruct (C9_failed_session_removes_nothing demo_clk (sweep_self 30) down_pop demo_w1)
    as (w' & Hrun & Hsame & _).
  rewrite Hrun. cbn [snd]. apply Hsame. left. reflexivity.
Defined.


(** ** The further properties at work on the demonstration mailbox *)




(** The mailbox refuses the deletion of "u1": the ledger keeps all three
    rows. *)
Lemma refused_dele_witness :
  db (_delete_old_mails demo_clk (sweep_self 30) stubborn_pop demo_w1).2 =
  demo_db.
Proof.
  destruct (refused_dele_keeps_the_ledger demo_clk (sweep_self 30)
              stubborn_pop demo_w1 three_listing "u1" (demo_row 60 true) 1)
    as (w' & sent & u' & n' & Hrun & Hdb & _);
    [discriminate | reflexivity | vm_compute; reflexivity | reflexivity
    | split; [reflexivity | vm_compute; reflexivity] | reflexivity
    | reflexivity |].
  rewrite Hrun. exact Hdb.
Defined.

(** QUIT fails after the deletion of "u1" was accepted: the row of "u1"
    is gone from the ledger all the same. *)
Lemma failed_quit_witness :
  db (_delete_old_mails demo_clk (sweep_self 30) hangup_pop demo_w1).2
    !! "u1" = None.
Proof.
  destruct (failed_quit_still_forgets demo_clk (sweep_self 30) hangup_pop
              demo_w1 three_listing "u1" (demo_row 60 true))
    as (w' & sent & Hrun & _ & Hnone & _);
    [discriminate | reflexivity | vm_compute; reflexivity | reflexivity
    | reflexivity | split; [reflexivity | vm_compute; reflexivity]
    | reflexivity |].
  rewrite Hrun. exact Hnone.
Defined.


(** The connection test passes on the demonstration servers: the relay
    then returns what sendmail answers. *)
Lemma passed_test_witness :
  (_forward_mail plain_self (demo_smtp true) demo_new "" "" demo_w0).1 =
    inr true ∧
  (_forward_mail plain_self (demo_smtp false) demo_new "" "" demo_w0).1 =
    inr false.
Proof.
  split.
  - apply (passed_test_leaves_only_sendmail plain_self None
             (demo_host (demo_pop three_items)) (demo_host (demo_pop []))
             (demo_smtp true)); reflexivity.
  - apply (passed_test_leaves_only_sendmail plain_self None
             (demo_host (demo_pop three_items)) (demo_host (demo_pop []))
             (demo_smtp false)); reflexivity.
Defined.


(** A server with a small key: the second attempt is made at the lowered
    level and its session is what comes back. *)
Lemma small_dh_key_witness :
  let run := create_pop3_connection (old_server (demo_pop [])) true true in
  Connect SecLevel1 ∈ run.1 ∧ run.2 = inr (demo_pop []).
Proof.
  cbv zeta.
  destruct (security_is_lowered_only_for_a_small_dh_key
              (old_server (demo_pop [])) true true) as (_ & _ & Hlow & Hres).
  split.
  - apply Hlow. split; [reflexivity|].
    exists "[SSL: DH_KEY_TOO_SMALL] dh key too small (_ssl.c:1006)",
           "[ssl: dh_key_too_small] ", " (_ssl.c:1006)".
    split; reflexivity.
  - rewrite Hres. reflexivity.
Defined.
